(** * TypeScriptTranslator: the declaration generator of apollo-server-codegen

    A shallow embedding of
    [packages/apollo-server-codegen/src/Translators/TypeScriptTranslator.ts]
    together with the properties of its output.

    JavaScript strings are modelled as [string]; template literals and [+]
    are [^], [Array.prototype.join] is [String.concat], and
    [Array.prototype.map] is [List.map].  The translator never throws by
    itself; the one run-time fault its methods can raise is the [TypeError]
    of reading a property of an absent object reference, which is modelled by
    the [result] type below. *)

From Stdlib Require Import Strings.String Strings.Ascii Lists.List Bool.Bool
  Arith.PeanoNat micromega.Lia.
Import ListNotations.

Local Open Scope string_scope.
Local Open Scope list_scope.

(** String concatenation, the [+] of JavaScript strings; [++] is kept for
    lists. *)
Infix "^" := String.append (at level 30, right associativity) : string_scope.

(** ** Characters that the string notation cannot spell directly *)

Definition LF : ascii := "010"%char.
Definition DQUOTE : ascii := "034"%char.

(** The one-character strings "\n" and the double quote. *)
Definition nl : string := String LF EmptyString.
Definition dq : string := String DQUOTE EmptyString.

(** ** Results of a rendering that may raise a [TypeError] *)

Inductive result (A : Type) : Type :=
| Ok (a : A)
| TypeError.

Arguments Ok {A} a.
Arguments TypeError {A}.

Definition bind {A B : Type} (r : result A) (k : A -> result B) : result B :=
  match r with
  | Ok a => k a
  | TypeError => TypeError
  end.

Notation "x <- r ;; k" := (bind r (fun x => k))
  (at level 61, r at next level, right associativity).

(** [xs.map(f)] for an [f] that may throw: the first fault aborts the map. *)
Fixpoint mapM {A B : Type} (f : A -> result B) (xs : list A) : result (list B) :=
  match xs with
  | [] => Ok []
  | x :: xs' =>
      y <- f x ;;
      ys <- mapM f xs' ;;
      Ok (y :: ys)
  end.

(** ** JavaScript string primitives *)

(** [xs.join(sep)] *)
Definition join (sep : string) (xs : list string) : string :=
  String.concat sep xs.

(** [s.split("\n")]: the pieces of [s] between line feeds; the empty string
    splits into one empty piece. *)
Fixpoint split_lines (s : string) : list string :=
  match s with
  | EmptyString => [EmptyString]
  | String c s' =>
      if Ascii.eqb c LF then EmptyString :: split_lines s'
      else match split_lines s' with
           | [] => [String c EmptyString]
           | piece :: pieces => String c piece :: pieces
           end
  end.

(** [occurs c s]: the character [c] appears somewhere in [s]. *)
Fixpoint occurs (c : ascii) (s : string) : bool :=
  match s with
  | EmptyString => false
  | String c' s' => Ascii.eqb c c' || occurs c s'
  end.

(** [includes needle s]: [s.includes(needle)], by scanning every suffix. *)
Fixpoint includes (needle s : string) : bool :=
  String.prefix needle s ||
  match s with
  | EmptyString => false
  | String _ s' => includes needle s'
  end.

(** ** The intermediate representation

    The node classes live in [IR.ts]; the translator reads the members
    listed here. *)

Module IR.

(** Modelled from the spec: the [Description] node of [IR.ts], free text
    that may be absent. *)
Record Description : Type := mkDescription {
  description : option string
}.

(** Modelled from the spec: the type nodes [NamedType], [NonNullType] and
    [ListType] of [IR.ts], the types of fields, arguments and resolvers.
    The fourth kind of type node, the compound type of key sets and requires
    clauses, is [CompoundType] below; it is rendered by
    [translateCompoundType], which takes no nullability flag. *)
Inductive Type_ : Type :=
| NamedType (name : string)
| NonNullType (base : Type_)
| ListType (base : Type_).

(** Modelled from the spec: one [{name, type}] member of a compound
    type. *)
Record Member : Type := mkMember {
  member_name : string;
  member_type : Type_
}.

(** Modelled from the spec: the [CompoundType] node of [IR.ts], used for
    key sets and requires clauses. *)
Record CompoundType : Type := mkCompoundType {
  types : list Member
}.

(** Modelled from the spec: the [ArgumentDefinition] node of [IR.ts],
    name, type and description. *)
Record ArgumentDefinition : Type := mkArgumentDefinition {
  arg_name : string;
  arg_type : Type_;
  arg_description : Description
}.

(** Modelled from the spec: the [FieldDefinition] node of [IR.ts], name,
    type and description. *)
Record FieldDefinition : Type := mkFieldDefinition {
  field_name : string;
  field_type : Type_;
  field_description : Description
}.

(** Modelled from the spec: the owning definition of a resolver; the
    translator reads only its [name]. *)
Record Parent : Type := mkParent {
  parent_name : string
}.

(** Modelled from the spec: the [ResolverDefinition] node of [IR.ts];
    [parent = None] is a missing parent reference ([undefined]). *)
Record ResolverDefinition : Type := mkResolverDefinition {
  resolver_name : string;
  arguments : list ArgumentDefinition;
  resolver_type : Type_;
  resolver_description : Description;
  parent : option Parent;
  requires : CompoundType;
  resolver_isRootType : bool;
  isNotProvidedAndExternal : bool
}.

(** Modelled from the spec: an object definition is either a plain object
    or the entity variant; [IR.ts], which decides which translator method
    renders it, is not among the sources. *)
Inductive Variant : Type := Plain | Entity.

(** Modelled from the spec: the [ObjectDefinition] node of [IR.ts]; [keys]
    are the key sets of the entity variant. *)
Record ObjectDefinition : Type := mkObjectDefinition {
  variant : Variant;
  name : string;
  object_description : Description;
  fields : list FieldDefinition;
  resolvers : list ResolverDefinition;
  isRootType : bool;
  keys : list CompoundType
}.

(** Modelled from the spec: the [EnumDefinition] node of [IR.ts], a name
    and its values in declaration order. *)
Record EnumDefinition : Type := mkEnumDefinition {
  enum_name : string;
  values : list string
}.

(** Modelled from the spec: the [ScalarDefinition] node of [IR.ts], a name
    only. *)
Record ScalarDefinition : Type := mkScalarDefinition {
  scalar_name : string
}.

End IR.

Import IR.

(** Modelled from the spec: the generation-wide configuration held by the
    [Translator] base class ([this.options]), one boolean option. *)
Record Options : Type := mkOptions {
  __experimentalInternalEnumValueSupport : bool
}.

(** ** The translator *)

Section Translator.

(** [this.options] *)
Variable options : Options.

(** *** Rendering of the nodes that cannot fault *)

(** [translateDescription]: [description] is the text [t.description] of
    the node. *)
Definition translateDescription (description : string) : string :=
  "/**" ^ nl ^ " * " ^ join (nl ^ " * ") (split_lines description)
    ^ nl ^ " */" ^ nl.

(** Modelled from the spec: [Description.translate] of [IR.ts], a block
    comment, or the empty string if the text is absent. *)
Definition Description_translate (t : Description) : string :=
  match description t with
  | Some text => translateDescription text
  | None => EmptyString
  end.

(** The [getName] closure of [translateNamedType]. *)
Definition getName (name : string) : string :=
  if name =? "Int" then "number"
  else if name =? "Boolean" then "boolean"
  else if name =? "ID" then "string"
  else if name =? "String" then "string"
  else name.

Definition translateNamedType (name : string) (nullable : bool) : string :=
  if nullable then "Nullable<" ^ getName name ^ ">" else getName name.

(** Modelled from the spec: [translate] of the type nodes of [IR.ts]
    delegates to the translator method of the node's class, passing the
    contextual nullability flag.  The bodies of [translateNonNullType] and
    [translateListType] are written in place so that the recursion is
    structural; they are restated below as definitions of their own. *)
Fixpoint Type_translate (t : Type_) (nullable : bool) : string :=
  match t with
  | NamedType name => translateNamedType name nullable
  | NonNullType base => Type_translate base false
  | ListType base =>
      if nullable
      then "Nullable<Array<" ^ Type_translate base true ^ ">>"
      else "Array<" ^ Type_translate base true ^ ">"
  end.

(** [translate(this)] without a flag: nullable by default. *)
Definition Type_translate_default (t : Type_) : string :=
  Type_translate t true.

Definition translateNonNullType (base : Type_) : string :=
  Type_translate base false.

Definition translateListType (base : Type_) (nullable : bool) : string :=
  if nullable
  then "Nullable<Array<" ^ Type_translate_default base ^ ">>"
  else "Array<" ^ Type_translate_default base ^ ">".

Definition translateCompoundType (t : CompoundType) : string :=
  join EmptyString
    (["{ "]
     ++ map (fun type =>
               member_name type ^ ": "
                 ^ Type_translate_default (member_type type) ^ ", ")
            (types t)
     ++ ["}"]).

(** [t.type instanceof IR.NonNullType] *)
Definition instanceof_NonNullType (t : Type_) : bool :=
  match t with
  | NonNullType _ => true
  | _ => false
  end.

Definition translateArgumentDefinition (t : ArgumentDefinition) : string :=
  join EmptyString
    [ Description_translate (arg_description t);
      arg_name t;
      if instanceof_NonNullType (arg_type t) then ": " else "?: ";
      Type_translate_default (NonNullType (arg_type t)) ].

Definition translateFieldDefinition (t : FieldDefinition) : string :=
  join EmptyString
    [ Description_translate (field_description t);
      field_name t;
      "?: ";
      Type_translate_default (field_type t) ].

(** *** Resolvers *)

(** The text that follows the name of a non-resolvable resolver. *)
Definition never_member : string :=
  ": never // non-resolvable: marked @external and not @provide'd by any fields".

(** [argsType] of [translateResolverDefinition] *)
Definition argsType (args : list ArgumentDefinition) : string :=
  match args with
  | [] => "{}"
  | _ :: _ =>
      "{" ^ nl ^ join nl (map translateArgumentDefinition args)
        ^ nl ^ "}"
  end.

(** [parentType] of [translateResolverDefinition], for the parent [p]. *)
Definition parentType (p : Parent) (req : CompoundType) : string :=
  parent_name p ^ "Representation<TInternalReps>"
    ^ match types req with
       | [] => EmptyString
       | _ :: _ => " & " ^ translateCompoundType req
       end.

(** Reading [t.parent.name] faults when the parent reference is absent. *)
Definition translateResolverDefinition (t : ResolverDefinition)
  : result string :=
  if isNotProvidedAndExternal t then
    Ok (resolver_name t ^ never_member)
  else
    let args := argsType (arguments t) in
    p <- match parent t with
         | Some p => Ok p
         | None => TypeError
         end ;;
    let returnType := Type_translate_default (resolver_type t) in
    Ok (join EmptyString
          [ Description_translate (resolver_description t);
            resolver_name t;
            if resolver_isRootType t then ": " else "?: ";
            "(parent: " ^ parentType p (requires t) ^ ", args: " ^ args
              ^ ", context: TContext, info: any) => PromiseOrValue<"
              ^ returnType ^ ">" ]).

(** [t.resolvers.map(resolver => resolver.translate(this) + "\n")] *)
Definition resolver_lines (rs : list ResolverDefinition)
  : result (list string) :=
  mapM (fun resolver =>
          s <- translateResolverDefinition resolver ;; Ok (s ^ nl)) rs.

(** [t.fields.map(field => field.translate(this) + "\n")] *)
Definition field_lines (fs : list FieldDefinition) : list string :=
  map (fun field => translateFieldDefinition field ^ nl) fs.

(** *** Object, entity, enum and scalar definitions *)

Definition translateObjectDefinition (t : ObjectDefinition)
  : result string :=
  rs <- resolver_lines (resolvers t) ;;
  Ok (join EmptyString
        (["type " ^ name t
            ^ "Representation<TInternalReps extends Record<string, any>> = Index<TInternalReps, "
            ^ dq ^ name t ^ dq ^ ", any>" ^ nl]
         ++ (if isRootType t then []
             else [ Description_translate (object_description t);
                    "export interface " ^ name t ^ " {" ^ nl ]
                  ++ field_lines (fields t)
                  ++ [ nl ^ "}" ^ nl ])
         ++ [ Description_translate (object_description t);
              "export interface " ^ name t
                ^ "Resolver<TContext = {}, TInternalReps = {}> {" ^ nl ]
         ++ rs
         ++ [ nl ^ "}" ^ nl ])).

Definition translateEntityDefinition (t : ObjectDefinition)
  : result string :=
  rs <- resolver_lines (resolvers t) ;;
  Ok (join EmptyString
        ([ "type " ^ name t
             ^ "Representation<TInternalReps extends Record<string, any>> = Index<TInternalReps, "
             ^ dq ^ name t ^ dq ^ ", {}> & (";
           join " | " (map translateCompoundType (keys t));
           ")" ^ nl ^ nl;
           Description_translate (object_description t);
           "export type " ^ name t ^ "<TInternalReps = {}> = " ^ name t
             ^ "Representation<TInternalReps> & {" ^ nl ]
         ++ field_lines (fields t)
         ++ [ nl ^ "}" ^ nl;
              Description_translate (object_description t);
              "export interface " ^ name t
                ^ "Resolver<TContext = {}, TInternalReps = {}> {" ^ nl;
              "  __resolveReference?: (parent: " ^ name t
                ^ "Representation<{ /* explicity don't pass TInternalReps */ }>, args: {}, context: TContext, info: any) => PromiseOrValue<Nullable<"
                ^ name t ^ ">>" ^ nl ]
         ++ rs
         ++ [ nl ^ "}" ^ nl ])).

(** Modelled from the spec: [ObjectDefinition.translate] of [IR.ts]; the
    entity variant renders through [translateEntityDefinition], a plain
    object through [translateObjectDefinition]. *)
Definition ObjectDefinition_translate (t : ObjectDefinition)
  : result string :=
  match variant t with
  | Plain => translateObjectDefinition t
  | Entity => translateEntityDefinition t
  end.

(** [options] of [translateEnumDefinition]: the quoted value literals. *)
Definition enum_options (vs : list string) : string :=
  join " | " (map (fun value => dq ^ value ^ dq) vs).

Definition translateEnumDefinition (t : EnumDefinition) : string :=
  let options_ := enum_options (values t) in
  if __experimentalInternalEnumValueSupport options
  then join nl [ "export type " ^ enum_name t ^ "External = " ^ options_;
                 "export type " ^ enum_name t ^ " = any" ]
  else "export type " ^ enum_name t ^ " = " ^ options_.

Definition translateScalarDefinition (t : ScalarDefinition) : string :=
  "export type " ^ scalar_name t ^ " = any".

(** *** Top-level generation *)

Definition generateHeader : string :=
  "// This is a machine generated file." ^ nl
  ^ "// Use " ^ dq ^ "apollo service:codegen" ^ dq ^ " to regenerate." ^ nl
  ^ "type PromiseOrValue<T> = Promise<T> | T" ^ nl
  ^ "type Nullable<T> = T | null | undefined" ^ nl
  ^ "type Index<Map extends Record<string, any>, Key extends string, IfMissing> = Map[Key] extends object ? Map[Key] : IfMissing"
  ^ nl.

(** The test on [type] in [generateTopLevelResolvers]. *)
Definition isRootOperationName (type : string) : bool :=
  (type =? "Query") || (type =? "Mutation") || (type =? "Subscription").

(** The entry of one object type in the aggregate interface. *)
Definition resolvers_entry (type : string) : string :=
  if isRootOperationName type
  then "  " ^ type ^ ": " ^ type ^ "Resolver<TContext, TInternalReps>"
  else "  " ^ type ^ "?: " ^ type ^ "Resolver<TContext, TInternalReps>".

Definition generateTopLevelResolvers (types enums scalars : list string)
  : string :=
  join nl
    (["export interface Resolvers<TContext = {}, TInternalReps = {}> {"]
     ++ map resolvers_entry types
     ++ map (fun scalar => "  " ^ scalar ^ ": any") scalars
     ++ (if __experimentalInternalEnumValueSupport options
         then map (fun enumName =>
                     "  " ^ enumName ^ ": { [external: " ^ enumName
                       ^ "External]: any }") enums
         else [])
     ++ ["}" ^ nl]).

Definition generate (objects : list ObjectDefinition)
           (enums : list EnumDefinition) (scalars : list ScalarDefinition)
  : result string :=
  let header := generateHeader in
  let resolvers_ :=
    generateTopLevelResolvers (map name objects) (map enum_name enums)
      (map scalar_name scalars) in
  objectDefinitions <- mapM ObjectDefinition_translate objects ;;
  let translatedObjectDefinitions := join nl objectDefinitions in
  let translatedEnumDefinitions :=
    join nl (map translateEnumDefinition enums) in
  let translatedScalarDefinitions :=
    join nl (map translateScalarDefinition scalars) in
  Ok (join nl [ header; resolvers_; translatedObjectDefinitions;
                translatedEnumDefinitions; translatedScalarDefinitions ]).

End Translator.

(** ** Vocabulary of the properties *)

(** A resolver renders without fault: it is either non-resolvable, and then
    its parent is never read, or its parent reference is present. *)
Definition renderable (r : ResolverDefinition) : Prop :=
  isNotProvidedAndExternal r = true \/ parent r <> None.

(** Every resolver of every object of the input renders without fault. *)
Definition parents_present (objects : list ObjectDefinition) : Prop :=
  Forall (fun o => Forall renderable (resolvers o)) objects.

(** [fragment] occurs in [out]. *)
Definition occurs_in (fragment out : string) : Prop :=
  exists before after, out = before ^ fragment ^ after.

(** [out] ends with [suffix]. *)
Definition ends_with (suffix out : string) : Prop :=
  exists before, out = before ^ suffix.

(** In [out], the fragments [a] and [b] follow each other with exactly one
    empty line in between. *)
Definition blank_line_between (a b out : string) : Prop :=
  occurs_in (a ^ nl ^ nl ^ b) out.

(** The last character of a string. *)
Fixpoint last_ascii (s : string) : option ascii :=
  match s with
  | EmptyString => None
  | String c EmptyString => Some c
  | String _ s' => last_ascii s'
  end.

(** A type stripped of its outer non-null wrappers. *)
Fixpoint core (t : Type_) : Type_ :=
  match t with
  | NonNullType base => core base
  | _ => t
  end.

(** The representation alias that opens a plain object declaration. *)
Definition plain_representation_alias (n : string) : string :=
  "type " ^ n
    ^ "Representation<TInternalReps extends Record<string, any>> = Index<TInternalReps, "
    ^ dq ^ n ^ dq ^ ", any>" ^ nl.

(** The representation alias that opens an entity declaration: the lookup
    intersected with the parenthesised union [union]. *)
Definition entity_representation_alias (n union : string) : string :=
  "type " ^ n
    ^ "Representation<TInternalReps extends Record<string, any>> = Index<TInternalReps, "
    ^ dq ^ n ^ dq ^ ", {}> & (" ^ union ^ ")" ^ nl ^ nl.

(** The public interface listing the fields of a plain object. *)
Definition field_interface (t : ObjectDefinition) : string :=
  Description_translate (object_description t)
    ^ "export interface " ^ name t ^ " {" ^ nl
    ^ join EmptyString (field_lines (fields t))
    ^ nl ^ "}" ^ nl.

(** The root type alias listing the fields of an entity. *)
Definition entity_root_alias (t : ObjectDefinition) : string :=
  Description_translate (object_description t)
    ^ "export type " ^ name t ^ "<TInternalReps = {}> = " ^ name t
    ^ "Representation<TInternalReps> & {" ^ nl
    ^ join EmptyString (field_lines (fields t))
    ^ nl ^ "}" ^ nl.

(** The resolver interface of a plain object, given its rendered members. *)
Definition resolver_interface (t : ObjectDefinition) (members : list string)
  : string :=
  Description_translate (object_description t)
    ^ "export interface " ^ name t
    ^ "Resolver<TContext = {}, TInternalReps = {}> {" ^ nl
    ^ join EmptyString members
    ^ nl ^ "}" ^ nl.

(** The resolver interface of an entity: the reference resolver comes
    first. *)
Definition entity_resolver_interface (t : ObjectDefinition)
           (members : list string) : string :=
  Description_translate (object_description t)
    ^ "export interface " ^ name t
    ^ "Resolver<TContext = {}, TInternalReps = {}> {" ^ nl
    ^ "  __resolveReference?: (parent: " ^ name t
    ^ "Representation<{ /* explicity don't pass TInternalReps */ }>, args: {}, context: TContext, info: any) => PromiseOrValue<Nullable<"
    ^ name t ^ ">>" ^ nl
    ^ join EmptyString members
    ^ nl ^ "}" ^ nl.

(** The two forms of an entry of the aggregate interface. *)
Definition required_entry (n : string) : string :=
  "  " ^ n ^ ": " ^ n ^ "Resolver<TContext, TInternalReps>".

Definition optional_entry (n : string) : string :=
  "  " ^ n ^ "?: " ^ n ^ "Resolver<TContext, TInternalReps>".

(** The callable signature of a resolver. *)
Definition callable_signature (parentTy args returnTy : string) : string :=
  "(parent: " ^ parentTy ^ ", args: " ^ args
    ^ ", context: TContext, info: any) => PromiseOrValue<" ^ returnTy ^ ">".

(** ** Sample inputs *)

Module Samples.

Definition no_description : Description := mkDescription None.

Definition no_requires : CompoundType := mkCompoundType [].

Definition key_id : CompoundType :=
  mkCompoundType [ mkMember "id" (NonNullType (NamedType "ID")) ].

Definition key_sku_region : CompoundType :=
  mkCompoundType [ mkMember "sku" (NonNullType (NamedType "String"));
                   mkMember "region" (NonNullType (NamedType "String")) ].

Definition id_field : FieldDefinition :=
  mkFieldDefinition "id" (NonNullType (NamedType "ID")) no_description.

Definition name_field : FieldDefinition :=
  mkFieldDefinition "name" (NamedType "String") no_description.

Definition first_argument : ArgumentDefinition :=
  mkArgumentDefinition "first" (NamedType "Int") no_description.

Definition id_argument : ArgumentDefinition :=
  mkArgumentDefinition "id" (NonNullType (NamedType "ID")) no_description.

(** [name: String] on [User]. *)
Definition name_resolver : ResolverDefinition :=
  mkResolverDefinition "name" [] (NamedType "String") no_description
    (Some (mkParent "User")) no_requires false false.

(** A resolver that requires [sku] and [region] of its parent. *)
Definition shipping_resolver : ResolverDefinition :=
  mkResolverDefinition "shipping" [first_argument] (NamedType "Int")
    no_description (Some (mkParent "Product")) key_sku_region false false.

(** An external field that nothing provides; its parent is not even
    set. *)
Definition external_resolver : ResolverDefinition :=
  mkResolverDefinition "weight" [first_argument] (NamedType "Int")
    no_description None key_sku_region false true.

(** A resolver whose parent reference is missing. *)
Definition orphan_resolver : ResolverDefinition :=
  mkResolverDefinition "name" [] (NamedType "String") no_description
    None no_requires false false.

Definition user_query : ResolverDefinition :=
  mkResolverDefinition "user" [id_argument] (NamedType "User")
    no_description (Some (mkParent "Query")) no_requires true false.

Definition User : ObjectDefinition :=
  mkObjectDefinition Plain "User" no_description [id_field; name_field]
    [name_resolver] false [].

Definition Query : ObjectDefinition :=
  mkObjectDefinition Plain "Query" no_description [] [user_query] true [].

(** An entity with the key sets [{id}] and [{sku, region}]. *)
Definition Product : ObjectDefinition :=
  mkObjectDefinition Entity "Product" no_description [id_field]
    [shipping_resolver] false [key_id; key_sku_region].

(** An entity that declares no key set. *)
Definition Keyless : ObjectDefinition :=
  mkObjectDefinition Entity "Keyless" no_description [id_field] [] false [].

(** A plain object that is not flagged as a root type but is named like
    one. *)
Definition unflagged_Query : ObjectDefinition :=
  mkObjectDefinition Plain "Query" no_description [id_field] [] false [].

(** A plain object flagged as a root type under another name. *)
Definition flagged_RootQuery : ObjectDefinition :=
  mkObjectDefinition Plain "RootQuery" no_description [id_field] [] true [].

Definition Orphaned : ObjectDefinition :=
  mkObjectDefinition Plain "Orphaned" no_description [] [orphan_resolver]
    false [].

Definition Color : EnumDefinition := mkEnumDefinition "Color" ["RED"; "BLUE"].

Definition Shade : EnumDefinition := mkEnumDefinition "Shade" ["DARK"].

Definition Date : ScalarDefinition := mkScalarDefinition "Date".

Definition defaults : Options := mkOptions false.

Definition internal_enums : Options := mkOptions true.

End Samples.

(** ** Vocabulary of the further properties *)

(** The number of times the character [c] appears in [s]. *)
Fixpoint count_char (c : ascii) (s : string) : nat :=
  match s with
  | EmptyString => 0
  | String c' s' => (if Ascii.eqb c c' then 1 else 0) + count_char c s'
  end.

(** The name at the bottom of a type, under its list and non-null
    wrappers. *)
Fixpoint named_leaf (t : Type_) : string :=
  match t with
  | NamedType name => name
  | NonNullType base => named_leaf base
  | ListType base => named_leaf base
  end.

(** A text that holds no line feed. *)
Definition one_line (s : string) : Prop := occurs LF s = false.

(** * Properties *)

(** Closed instances of [Forall renderable] and [parents_present] on sample
    inputs. *)
Ltac solve_present :=
  repeat first
    [ apply Forall_nil
    | apply Forall_cons
    | left; reflexivity
    | right; discriminate ].

(** ** Strings *)

Module StringFacts.

Lemma app_empty_r (s : string) : s ^ EmptyString = s.
Proof. induction s as [| c s IH]; simpl; [reflexivity | now rewrite IH]. Qed.

Lemma app_assoc (a b c : string) : (a ^ b) ^ c = a ^ b ^ c.
Proof. induction a as [| x a IH]; simpl; [reflexivity | now rewrite IH]. Qed.

Lemma app_cancel_l (a x y : string) : a ^ x = a ^ y -> x = y.
Proof.
  induction a as [| c a IH]; simpl; intros H; [exact H |].
  apply IH. now inversion H.
Qed.

Lemma occurs_app (c : ascii) (a b : string) :
  occurs c (a ^ b) = occurs c a || occurs c b.
Proof.
  induction a as [| x a IH]; simpl; [reflexivity |].
  now rewrite IH, orb_assoc.
Qed.

Lemma prefix_app (needle rest : string) :
  String.prefix needle (needle ^ rest) = true.
Proof.
  induction needle as [| c n IH]; simpl.
  - now destruct rest.
  - destruct (ascii_dec c c) as [_ | ne]; [exact IH | now destruct ne].
Qed.

Lemma prefix_head (c : ascii) (needle s : string) :
  String.prefix (String c needle) s = true ->
  exists s', s = String c s'.
Proof.
  destruct s as [| x s]; simpl; [discriminate |].
  destruct (ascii_dec c x) as [-> | _]; [| discriminate].
  intros _. now exists s.
Qed.

Lemma includes_here (needle s : string) :
  String.prefix needle s = true -> includes needle s = true.
Proof. intros H. destruct s; simpl in *; now rewrite H. Qed.

Lemma includes_later (needle : string) (c : ascii) (s : string) :
  includes needle s = true -> includes needle (String c s) = true.
Proof. intros H. cbn [includes]. rewrite H. apply orb_true_r. Qed.

(** [includes] finds every occurrence. *)
Lemma includes_complete (needle out : string) :
  occurs_in needle out -> includes needle out = true.
Proof.
  intros (before & after & ->).
  induction before as [| c b IH]; simpl append.
  - apply includes_here, prefix_app.
  - apply includes_later, IH.
Qed.

(** ... and only occurrences. *)
Lemma prefix_sound (needle s : string) :
  String.prefix needle s = true -> exists rest, s = needle ^ rest.
Proof.
  revert s. induction needle as [| c n IH]; intros s H.
  - now exists s.
  - destruct s as [| x s]; simpl in H; [discriminate |].
    destruct (ascii_dec c x) as [-> | _]; [| discriminate].
    destruct (IH _ H) as (rest & ->). now exists rest.
Qed.

Lemma includes_sound (needle out : string) :
  includes needle out = true -> occurs_in needle out.
Proof.
  induction out as [| c s IH]; cbn [includes]; intros H.
  - rewrite orb_false_r in H. destruct (prefix_sound _ _ H) as (rest & E).
    now exists EmptyString, rest.
  - apply orb_true_iff in H as [H | H].
    + destruct (prefix_sound _ _ H) as (rest & E).
      now exists EmptyString, rest.
    + destruct (IH H) as (before & after & ->).
      now exists (String c before), after.
Qed.

Lemma includes_iff (needle out : string) :
  includes needle out = true <-> occurs_in needle out.
Proof. split; [apply includes_sound | apply includes_complete]. Qed.

Lemma not_includes (needle out : string) :
  includes needle out = false -> ~ occurs_in needle out.
Proof.
  intros H Hin. apply includes_complete in Hin. congruence.
Qed.

(** An occurrence of a text forces an occurrence of its first character. *)
Lemma includes_occurs (c : ascii) (needle out : string) :
  includes (String c needle) out = true -> occurs c out = true.
Proof.
  intros H. apply includes_sound in H as (before & after & ->).
  rewrite occurs_app. simpl. rewrite Ascii.eqb_refl.
  apply orb_true_r.
Qed.

Lemma last_ascii_app (a b : string) :
  b <> EmptyString -> last_ascii (a ^ b) = last_ascii b.
Proof.
  intros Hb. induction a as [| c a IH]; [reflexivity |].
  simpl append. cbn [last_ascii].
  destruct (a ^ b) eqn:E; [| exact IH].
  destruct a; simpl in E; [congruence | discriminate].
Qed.

Lemma ends_with_last (c : ascii) (suffix out : string) :
  ends_with (suffix ^ String c EmptyString) out -> last_ascii out = Some c.
Proof.
  intros (before & ->). rewrite <- app_assoc.
  now rewrite last_ascii_app.
Qed.

Lemma occurs_in_refl (s : string) : occurs_in s s.
Proof. exists EmptyString, EmptyString. now rewrite app_empty_r. Qed.

Lemma occurs_in_app_l (x a b : string) : occurs_in x a -> occurs_in x (a ^ b).
Proof.
  intros (p & q & ->). exists p, (q ^ b). now rewrite !app_assoc.
Qed.

Lemma occurs_in_app_r (x a b : string) : occurs_in x b -> occurs_in x (a ^ b).
Proof.
  intros (p & q & ->). exists (a ^ p), q. now rewrite !app_assoc.
Qed.

End StringFacts.

(** ** [join] and [mapM] *)

Module JoinFacts.
Import StringFacts.

Lemma join_cons (sep x : string) (xs : list string) :
  xs <> [] -> join sep (x :: xs) = x ^ sep ^ join sep xs.
Proof. destruct xs; [congruence | reflexivity]. Qed.

Lemma join_empty_cons (x : string) (xs : list string) :
  join EmptyString (x :: xs) = x ^ join EmptyString xs.
Proof.
  destruct xs as [| y ys]; simpl; [now rewrite app_empty_r | reflexivity].
Qed.

Lemma join_empty_app (xs ys : list string) :
  join EmptyString (xs ++ ys) = join EmptyString xs ^ join EmptyString ys.
Proof.
  induction xs as [| x xs IH]; [reflexivity |].
  rewrite <- app_comm_cons, !join_empty_cons, IH. now rewrite app_assoc.
Qed.

Lemma join_app (sep : string) (xs ys : list string) :
  xs <> [] -> ys <> [] ->
  join sep (xs ++ ys) = join sep xs ^ sep ^ join sep ys.
Proof.
  intros Hx Hy. induction xs as [| x xs IH]; [congruence |].
  destruct xs as [| x' xs].
  - simpl app. now apply join_cons.
  - rewrite <- app_comm_cons, join_cons by discriminate.
    rewrite IH by discriminate.
    rewrite (join_cons sep x) by discriminate. now rewrite !app_assoc.
Qed.

(** A joined list contains each of its elements. *)
Lemma join_In (sep x : string) (xs : list string) :
  In x xs -> occurs_in x (join sep xs).
Proof.
  induction xs as [| y ys IH]; [contradiction |].
  intros [-> | Hin].
  - destruct ys; [apply occurs_in_refl |].
    rewrite join_cons by discriminate.
    apply occurs_in_app_l, occurs_in_refl.
  - destruct ys as [| z zs]; [contradiction |].
    rewrite join_cons by discriminate.
    now apply occurs_in_app_r, occurs_in_app_r, IH.
Qed.

(** Two neighbours of the list are neighbours in the joined text, with
    just the separator in between. *)
Lemma join_neighbours (sep x y : string) (xs ys : list string) :
  occurs_in (x ^ sep ^ y) (join sep (xs ++ x :: y :: ys)).
Proof.
  assert (Hhere : occurs_in (x ^ sep ^ y) (join sep (x :: y :: ys))).
  { rewrite join_cons by discriminate.
    destruct ys as [| z zs].
    - apply occurs_in_refl.
    - rewrite join_cons by discriminate.
      exists EmptyString, (sep ^ join sep (z :: zs)).
      simpl. now rewrite !app_assoc. }
  destruct xs as [| x0 xs]; [exact Hhere |].
  rewrite join_app; [| discriminate | discriminate].
  now apply occurs_in_app_r, occurs_in_app_r.
Qed.

(** An inner element of a joined list stands between two separators. *)
Lemma join_inner (sep x first final : string) (xs : list string) :
  In x xs -> occurs_in (sep ^ x ^ sep) (join sep (first :: xs ++ [final])).
Proof.
  intros Hin. apply in_split in Hin as (l1 & l2 & ->).
  replace (first :: (l1 ++ x :: l2) ++ [final])
    with ((first :: l1) ++ x :: (l2 ++ [final])).
  2:{ simpl. now rewrite <- List.app_assoc. }
  rewrite join_app; [| discriminate | discriminate].
  rewrite (join_cons sep x) by (destruct l2; discriminate).
  exists (join sep (first :: l1)), (join sep (l2 ++ [final])).
  now rewrite !app_assoc.
Qed.

Lemma Ok_inj {A : Type} (a b : A) : Ok a = Ok b -> a = b.
Proof. intros H. congruence. Qed.

Lemma mapM_total {A B : Type} (f : A -> result B) (xs : list A) :
  Forall (fun x => exists y, f x = Ok y) xs ->
  exists ys, mapM f xs = Ok ys.
Proof.
  induction 1 as [| x xs (y & Hy) _ (ys & IH)]; simpl.
  - now exists [].
  - rewrite Hy; simpl. rewrite IH; simpl. now exists (y :: ys).
Qed.

Lemma mapM_fault {A B : Type} (f : A -> result B) (xs : list A) :
  Exists (fun x => f x = TypeError) xs -> mapM f xs = TypeError.
Proof.
  induction 1 as [x xs Hx | x xs _ IH]; simpl.
  - now rewrite Hx.
  - destruct (f x); simpl; [now rewrite IH | reflexivity].
Qed.

Lemma mapM_Ok_inv {A B : Type} (f : A -> result B) (xs : list A)
      (ys : list B) :
  mapM f xs = Ok ys -> Forall2 (fun x y => f x = Ok y) xs ys.
Proof.
  revert ys. induction xs as [| x xs IH]; simpl; intros ys H.
  - inversion H. constructor.
  - destruct (f x) as [y |] eqn:Hx; simpl in H; [| discriminate].
    destruct (mapM f xs) as [ys' |]; simpl in H; [| discriminate].
    inversion H; subst. constructor; [exact Hx | now apply IH].
Qed.

Lemma mapM_In {A B : Type} (f : A -> result B) (xs : list A)
      (ys : list B) (x : A) :
  mapM f xs = Ok ys -> In x xs -> exists y, f x = Ok y /\ In y ys.
Proof.
  intros H. apply mapM_Ok_inv in H.
  induction H as [| x0 y0 xs ys Hx _ IH]; [contradiction |].
  intros [<- | Hin].
  - exists y0. split; [exact Hx | now left].
  - destruct (IH Hin) as (y & Hy & Hin'). exists y. split; [exact Hy | now right].
Qed.

End JoinFacts.

(** ** The shape of the rendered definitions *)

Module Shape.
Import StringFacts JoinFacts.

Lemma resolver_external (t : ResolverDefinition) :
  isNotProvidedAndExternal t = true ->
  translateResolverDefinition t = Ok (resolver_name t ^ never_member).
Proof. intros H. unfold translateResolverDefinition. now rewrite H. Qed.

Lemma resolver_callable (t : ResolverDefinition) (p : Parent) :
  isNotProvidedAndExternal t = false ->
  parent t = Some p ->
  translateResolverDefinition t =
    Ok (Description_translate (resolver_description t)
          ^ resolver_name t
          ^ (if resolver_isRootType t then ": " else "?: ")
          ^ callable_signature (parentType p (requires t))
              (argsType (arguments t))
              (Type_translate_default (resolver_type t))).
Proof.
  intros He Hp. unfold translateResolverDefinition. rewrite He, Hp.
  cbn [bind]. rewrite !join_empty_cons. cbn [join String.concat].
  now rewrite app_empty_r.
Qed.

Lemma resolver_orphan (t : ResolverDefinition) :
  isNotProvidedAndExternal t = false ->
  parent t = None ->
  translateResolverDefinition t = TypeError.
Proof. intros He Hp. unfold translateResolverDefinition. now rewrite He, Hp. Qed.

(** A resolver renders exactly when it is [renderable]. *)
Lemma resolver_renders (r : ResolverDefinition) :
  renderable r <-> exists s, translateResolverDefinition r = Ok s.
Proof.
  split.
  - intros [He | Hp].
    + eexists. now apply resolver_external.
    + destruct (isNotProvidedAndExternal r) eqn:He.
      * eexists. now apply resolver_external.
      * destruct (parent r) as [p |] eqn:E; [| congruence].
        eexists. apply (resolver_callable r p); assumption.
  - intros (s & Hs).
    destruct (isNotProvidedAndExternal r) eqn:He; [now left |].
    destruct (parent r) as [p |] eqn:E.
    + right. unfold renderable. congruence.
    + rewrite resolver_orphan in Hs by assumption. discriminate.
Qed.

Lemma resolver_faults (r : ResolverDefinition) :
  ~ renderable r <-> translateResolverDefinition r = TypeError.
Proof.
  rewrite resolver_renders. split.
  - intros H. destruct (translateResolverDefinition r) as [s |];
      [destruct H; now exists s | reflexivity].
  - intros H (s & Hs). congruence.
Qed.

Lemma resolver_lines_render (rs : list ResolverDefinition) :
  Forall renderable rs <-> exists members, resolver_lines rs = Ok members.
Proof.
  unfold resolver_lines. split.
  - intros H. apply mapM_total.
    eapply Forall_impl; [| exact H]. intros r Hr.
    apply resolver_renders in Hr as (s & ->). now eexists.
  - intros (members & H). apply Forall_forall. intros r Hin.
    destruct (mapM_In _ _ _ _ H Hin) as (y & Hy & _).
    apply resolver_renders.
    destruct (translateResolverDefinition r) as [s |];
      [now exists s | discriminate].
Qed.

Lemma resolver_lines_fault (rs : list ResolverDefinition) :
  ~ Forall renderable rs -> resolver_lines rs = TypeError.
Proof.
  intros H. destruct (resolver_lines rs) as [members |] eqn:E;
    [| reflexivity].
  destruct H. apply resolver_lines_render. now exists members.
Qed.

Lemma object_shape (t : ObjectDefinition) :
  translateObjectDefinition t =
    members <- resolver_lines (resolvers t) ;;
    Ok (plain_representation_alias (name t)
          ^ (if isRootType t then EmptyString else field_interface t)
          ^ resolver_interface t members).
Proof.
  unfold translateObjectDefinition.
  destruct (resolver_lines (resolvers t)) as [members |]; [| reflexivity].
  cbn [bind]. f_equal.
  unfold plain_representation_alias, field_interface, resolver_interface.
  destruct (isRootType t).
  - cbn [app]. rewrite !join_empty_cons, join_empty_app.
    cbn [join String.concat append]. now rewrite !app_assoc.
  - cbn [app]. rewrite !join_empty_cons, !join_empty_app, !join_empty_cons,
      join_empty_app.
    cbn [join String.concat]. now rewrite !app_assoc.
Qed.

Lemma entity_shape (t : ObjectDefinition) :
  translateEntityDefinition t =
    members <- resolver_lines (resolvers t) ;;
    Ok (entity_representation_alias (name t)
          (join " | " (map translateCompoundType (keys t)))
          ^ entity_root_alias t
          ^ entity_resolver_interface t members).
Proof.
  unfold translateEntityDefinition.
  destruct (resolver_lines (resolvers t)) as [members |]; [| reflexivity].
  cbn [bind]. f_equal.
  unfold entity_representation_alias, entity_root_alias,
    entity_resolver_interface.
  cbn [app]. rewrite !join_empty_cons, !join_empty_app, !join_empty_cons,
    join_empty_app.
  cbn [join String.concat]. now rewrite !app_assoc.
Qed.

Lemma object_renders (o : ObjectDefinition) :
  Forall renderable (resolvers o) <->
  exists s, ObjectDefinition_translate o = Ok s.
Proof.
  rewrite resolver_lines_render. unfold ObjectDefinition_translate.
  destruct (variant o); [rewrite object_shape | rewrite entity_shape];
    (split; intros (x & H);
     [rewrite H; cbn [bind]; now eexists
     | destruct (resolver_lines (resolvers o)) as [members |];
       [now exists members | discriminate]]).
Qed.

Lemma generate_shape (options : Options) (objects : list ObjectDefinition)
      (enums : list EnumDefinition) (scalars : list ScalarDefinition) :
  generate options objects enums scalars =
    declarations <- mapM ObjectDefinition_translate objects ;;
    Ok (generateHeader ^ nl
          ^ generateTopLevelResolvers options (map name objects)
              (map enum_name enums) (map scalar_name scalars) ^ nl
          ^ join nl declarations ^ nl
          ^ join nl (map (translateEnumDefinition options) enums) ^ nl
          ^ join nl (map translateScalarDefinition scalars)).
Proof. reflexivity. Qed.

(** [generate] returns exactly when every parent that is read is there. *)
Lemma generate_returns (options : Options) (objects : list ObjectDefinition)
      (enums : list EnumDefinition) (scalars : list ScalarDefinition) :
  parents_present objects <->
  exists out, generate options objects enums scalars = Ok out.
Proof.
  rewrite generate_shape. unfold parents_present. split.
  - intros H.
    destruct (mapM_total ObjectDefinition_translate objects) as (ds & ->).
    + eapply Forall_impl; [| exact H]. intros o. apply object_renders.
    + cbn [bind]. now eexists.
  - intros (out & H).
    destruct (mapM ObjectDefinition_translate objects) as [ds |] eqn:E;
      [| discriminate].
    apply Forall_forall. intros o Hin.
    destruct (mapM_In _ _ _ _ E Hin) as (d & Hd & _).
    apply object_renders. now exists d.
Qed.

End Shape.

(** ** Type rendering *)

Module TypeFacts.
Import StringFacts JoinFacts.

Lemma getName_other (name : string) :
  name <> "Int" -> name <> "Boolean" -> name <> "ID" -> name <> "String" ->
  getName name = name.
Proof.
  intros H1 H2 H3 H4. unfold getName.
  apply String.eqb_neq in H1, H2, H3, H4. now rewrite H1, H2, H3, H4.
Qed.

(** The nullable rendering of a type without its outer non-null wrappers
    is the non-null rendering of the type inside the [Nullable] alias. *)
Lemma nullable_core (t : Type_) :
  Type_translate (core t) true = "Nullable<" ^ Type_translate t false ^ ">".
Proof.
  induction t as [name | base IH | base _]; simpl.
  - reflexivity.
  - exact IH.
  - now rewrite !app_assoc.
Qed.

(** The dispatch of a type node reaches the translator method of its
    class. *)
Lemma Type_translate_dispatch (t : Type_) (nullable : bool) :
  Type_translate t nullable
  = match t with
    | NamedType name => translateNamedType name nullable
    | NonNullType base => translateNonNullType base
    | ListType base => translateListType base nullable
    end.
Proof. destruct t; reflexivity. Qed.

Lemma split_lines_single (s : string) :
  occurs LF s = false -> split_lines s = [s].
Proof.
  induction s as [| c s IH]; cbn [split_lines occurs]; [reflexivity |].
  intros H. apply orb_false_iff in H as [Hc Hs].
  rewrite Ascii.eqb_sym, Hc. now rewrite (IH Hs).
Qed.

Lemma split_lines_first (a b : string) :
  occurs LF a = false -> split_lines (a ^ nl ^ b) = a :: split_lines b.
Proof.
  induction a as [| c a IH]; cbn [split_lines occurs append];
    [intros _; unfold nl; cbn [split_lines append];
     now rewrite Ascii.eqb_refl |].
  intros H. apply orb_false_iff in H as [Hc Ha].
  rewrite Ascii.eqb_sym, Hc. now rewrite (IH Ha).
Qed.

Lemma occurs_join (c : ascii) (sep : string) (xs : list string) :
  occurs c sep = false ->
  Forall (fun x => occurs c x = false) xs ->
  occurs c (join sep xs) = false.
Proof.
  intros Hsep. induction 1 as [| x xs Hx _ IH]; [reflexivity |].
  destruct xs as [| y ys]; [exact Hx |].
  rewrite join_cons by discriminate.
  now rewrite !occurs_app, Hx, Hsep, IH.
Qed.

Lemma occurs_enum_options (vs : list string) :
  Forall (fun v => occurs LF v = false) vs ->
  occurs LF (enum_options vs) = false.
Proof.
  intros H. apply occurs_join; [reflexivity |].
  apply Forall_map. eapply Forall_impl; [| exact H].
  intros v Hv. now rewrite !occurs_app, Hv.
Qed.

End TypeFacts.

(** C7: a named type renders [Int], [Boolean], [ID] and [String] as
    [number], [boolean], [string] and [string]; every other name renders as
    itself; the rendering is wrapped in [Nullable<...>] when the contextual
    flag is true and is bare when it is false. *)
Theorem translateNamedType_primitives (name : string) (nullable : bool) :
  translateNamedType "Int" false = "number"
  /\ translateNamedType "Boolean" false = "boolean"
  /\ translateNamedType "ID" false = "string"
  /\ translateNamedType "String" false = "string"
  /\ (name <> "Int" -> name <> "Boolean" -> name <> "ID" ->
      name <> "String" -> translateNamedType name false = name)
  /\ translateNamedType name nullable
     = (if nullable then "Nullable<" ^ translateNamedType name false ^ ">"
        else translateNamedType name false)
  /\ Type_translate (NamedType name) nullable
     = translateNamedType name nullable.
Proof.
  repeat split. apply TypeFacts.getName_other.
Qed.

Lemma translateNamedType_primitives_witness :
  translateNamedType "User" false = "User"
  /\ translateNamedType "User" true = "Nullable<User>".
Proof.
  destruct (translateNamedType_primitives "User" true)
    as (_ & _ & _ & _ & Hother & Hwrap & _).
  assert (Hbare : translateNamedType "User" false = "User")
    by (apply Hother; discriminate).
  split; [exact Hbare |].
  rewrite Hwrap, Hbare. reflexivity.
Defined.

(** C6: the nullable rendering of a named type is its non-null rendering
    inside [Nullable<...>]; a non-null type renders its base with the flag
    false whatever flag it is given, so a doubled non-null wrapper renders
    like a single one. *)
Theorem nullable_wraps_and_nonnull_is_absolute
        (name : string) (x : Type_) (nullable nullable' : bool) :
  Type_translate (NamedType name) true
  = "Nullable<" ^ Type_translate (NamedType name) false ^ ">"
  /\ Type_translate (NonNullType x) nullable = translateNonNullType x
  /\ translateNonNullType x = Type_translate x false
  /\ Type_translate (NonNullType x) nullable
     = Type_translate (NonNullType x) nullable'
  /\ Type_translate (NonNullType (NonNullType x)) nullable
     = Type_translate (NonNullType x) nullable'.
Proof. repeat split; reflexivity. Qed.

(** C8: an argument is rendered with the required separator exactly when its
    type is a non-null type and with the optional separator otherwise; in
    both cases its type is rendered through a non-null wrapper, so the text
    is that of the underlying named or list type without the [Nullable]
    alias around it. *)
Theorem argument_optional_never_nullable (t : ArgumentDefinition) :
  let rendered := Type_translate_default (NonNullType (arg_type t)) in
  (forall base, arg_type t = NonNullType base ->
     translateArgumentDefinition t
     = Description_translate (arg_description t) ^ arg_name t ^ ": "
         ^ rendered)
  /\ ((forall base, arg_type t <> NonNullType base) ->
      translateArgumentDefinition t
      = Description_translate (arg_description t) ^ arg_name t ^ "?: "
          ^ rendered)
  /\ rendered = Type_translate (arg_type t) false
  /\ Type_translate (core (arg_type t)) true = "Nullable<" ^ rendered ^ ">"
  /\ match core (arg_type t) with
     | NamedType name => rendered = getName name
     | ListType base => rendered = "Array<" ^ Type_translate base true ^ ">"
     | NonNullType _ => False
     end.
Proof.
  intros rendered. unfold translateArgumentDefinition.
  rewrite !JoinFacts.join_empty_cons. cbn [join String.concat].
  rewrite StringFacts.app_empty_r. fold rendered.
  repeat split.
  - intros base ->. reflexivity.
  - intros Hnot. destruct (arg_type t); try reflexivity.
    now destruct (Hnot t0).
  - apply TypeFacts.nullable_core.
  - subst rendered. unfold Type_translate_default. cbn [Type_translate].
    induction (arg_type t) as [name | base IH | base _]; simpl;
      [reflexivity | exact IH | reflexivity].
Qed.

Lemma argument_optional_never_nullable_witness :
  translateArgumentDefinition Samples.first_argument = "first?: number"
  /\ translateArgumentDefinition Samples.id_argument = "id: string".
Proof.
  split.
  - destruct (argument_optional_never_nullable Samples.first_argument)
      as (_ & Hopt & _).
    rewrite Hopt; [reflexivity | intros base; discriminate].
  - destruct (argument_optional_never_nullable Samples.id_argument)
      as (Hreq & _).
    rewrite (Hreq (NamedType "ID")); reflexivity.
Defined.

(** C9: with the internal-enum-value option off an enum renders as one alias
    of its name to the union of its quoted values; with the option on it
    renders as two aliases, [<Name>External] to that union and [<Name>] to
    [any].  When no name or value holds a line feed these are one line and
    two lines of output. *)
Theorem enum_aliases (options : Options) (t : EnumDefinition) :
  let union := join " | " (map (fun value => dq ^ value ^ dq) (values t)) in
  let external := "export type " ^ enum_name t ^ "External = " ^ union in
  let primary := "export type " ^ enum_name t ^ " = any" in
  (__experimentalInternalEnumValueSupport options = false ->
     translateEnumDefinition options t
     = "export type " ^ enum_name t ^ " = " ^ union)
  /\ (__experimentalInternalEnumValueSupport options = true ->
      translateEnumDefinition options t = external ^ nl ^ primary)
  /\ (occurs LF (enum_name t) = false ->
      Forall (fun value => occurs LF value = false) (values t) ->
      split_lines (translateEnumDefinition options t)
      = if __experimentalInternalEnumValueSupport options
        then [external; primary]
        else ["export type " ^ enum_name t ^ " = " ^ union]).
Proof.
  intros union external primary.
  unfold translateEnumDefinition, enum_options. fold union.
  split; [| split].
  - intros ->. reflexivity.
  - intros ->. reflexivity.
  - intros Hname Hvalues.
    assert (Hunion : occurs LF union = false)
      by (apply TypeFacts.occurs_enum_options; assumption).
    destruct (__experimentalInternalEnumValueSupport options).
    + cbn [join String.concat]. fold external primary.
      rewrite TypeFacts.split_lines_first.
      * rewrite TypeFacts.split_lines_single; [reflexivity |].
        subst primary. now rewrite !StringFacts.occurs_app, Hname.
      * subst external. now rewrite !StringFacts.occurs_app, Hname, Hunion.
    + apply TypeFacts.split_lines_single.
      now rewrite !StringFacts.occurs_app, Hname, Hunion.
Qed.

Lemma enum_aliases_witness :
  translateEnumDefinition Samples.defaults Samples.Color
  = "export type Color = " ^ dq ^ "RED" ^ dq ^ " | " ^ dq ^ "BLUE" ^ dq
  /\ translateEnumDefinition Samples.internal_enums Samples.Color
     = "export type ColorExternal = " ^ dq ^ "RED" ^ dq ^ " | " ^ dq ^ "BLUE"
         ^ dq ^ nl ^ "export type Color = any"
  /\ List.length
       (split_lines (translateEnumDefinition Samples.internal_enums
                       Samples.Color)) = 2.
Proof.
  destruct (enum_aliases Samples.defaults Samples.Color) as (Hoff & _ & _).
  destruct (enum_aliases Samples.internal_enums Samples.Color)
    as (_ & Hon & Hlines).
  split; [| split].
  - rewrite Hoff; reflexivity.
  - rewrite Hon; reflexivity.
  - rewrite Hlines; [reflexivity | reflexivity |].
    repeat constructor.
Defined.

(** ** Resolvers *)

(** C4: a resolver marked [isNotProvidedAndExternal] renders as its name
    followed by [: never] and the fixed comment, whatever its arguments,
    type, parent and requires clause are; the fixed text holds no
    parenthesis, and unless the name itself brings one the output holds no
    callable signature. *)
Theorem external_resolver_is_never (t : ResolverDefinition) :
  isNotProvidedAndExternal t = true ->
  translateResolverDefinition t = Ok (resolver_name t ^ never_member)
  /\ never_member
     = ": never // non-resolvable: marked @external and not @provide'd by any fields"
  /\ occurs "("%char never_member = false
  /\ includes "=>" never_member = false
  /\ (occurs "("%char (resolver_name t) = false ->
      forall parentTy args returnTy,
        ~ occurs_in (callable_signature parentTy args returnTy)
            (resolver_name t ^ never_member)).
Proof.
  intros H. split; [now apply Shape.resolver_external |].
  repeat split.
  intros Hname parentTy args returnTy Hin.
  apply StringFacts.includes_complete in Hin.
  apply StringFacts.includes_occurs in Hin.
  rewrite StringFacts.occurs_app, Hname in Hin. discriminate.
Qed.

Lemma external_resolver_is_never_witness :
  translateResolverDefinition Samples.external_resolver
  = Ok "weight: never // non-resolvable: marked @external and not @provide'd by any fields"
  /\ forall parentTy args returnTy,
       ~ occurs_in (callable_signature parentTy args returnTy)
           (resolver_name Samples.external_resolver ^ never_member).
Proof.
  destruct (external_resolver_is_never Samples.external_resolver)
    as (Hout & _ & _ & _ & Hsig); [reflexivity |].
  split; [exact Hout | apply Hsig; reflexivity].
Defined.

(** C3: the representation alias of an entity is the lookup
    [Index<TInternalReps, "Name", {}>] intersected with the parenthesised
    union, joined by [|], of its key sets; the parent parameter of a rendered
    resolver signature is the parent's representation type, intersected by
    [&] with the requires clause when that clause is not empty and alone
    otherwise. *)
Theorem keys_by_union_requires_by_intersection
        (t : ObjectDefinition) (r : ResolverDefinition) (p : Parent) :
  (Forall renderable (resolvers t) ->
   exists members,
     resolver_lines (resolvers t) = Ok members
     /\ translateEntityDefinition t
        = Ok (("type " ^ name t
                 ^ "Representation<TInternalReps extends Record<string, any>> = Index<TInternalReps, "
                 ^ dq ^ name t ^ dq ^ ", {}> & ("
                 ^ join " | " (map translateCompoundType (keys t))
                 ^ ")" ^ nl ^ nl)
                ^ entity_root_alias t
                ^ entity_resolver_interface t members))
  /\ (isNotProvidedAndExternal r = false -> parent r = Some p ->
      exists parentTy,
        translateResolverDefinition r
        = Ok (Description_translate (resolver_description r)
                ^ resolver_name r
                ^ (if resolver_isRootType r then ": " else "?: ")
                ^ "(parent: " ^ parentTy ^ ", args: "
                ^ argsType (arguments r)
                ^ ", context: TContext, info: any) => PromiseOrValue<"
                ^ Type_translate_default (resolver_type r) ^ ">")
        /\ (types (requires r) <> [] ->
            parentTy = parent_name p ^ "Representation<TInternalReps>"
                         ^ " & " ^ translateCompoundType (requires r))
        /\ (types (requires r) = [] ->
            parentTy = parent_name p ^ "Representation<TInternalReps>")).
Proof.
  split.
  - intros H. apply Shape.resolver_lines_render in H as (members & Hm).
    exists members. split; [exact Hm |].
    rewrite Shape.entity_shape, Hm. reflexivity.
  - intros He Hp. exists (parentType p (requires r)).
    split; [now apply Shape.resolver_callable |].
    unfold parentType. split; intros Hreq.
    + destruct (types (requires r)); [congruence | reflexivity].
    + rewrite Hreq. now rewrite StringFacts.app_empty_r.
Qed.

Lemma keys_by_union_requires_by_intersection_witness :
  (exists rest,
     translateEntityDefinition Samples.Product
     = Ok ("type ProductRepresentation<TInternalReps extends Record<string, any>> = Index<TInternalReps, "
             ^ dq ^ "Product" ^ dq
             ^ ", {}> & ({ id: string, } | { sku: string, region: string, })"
             ^ nl ^ nl ^ rest))
  /\ (exists before after,
        translateResolverDefinition Samples.shipping_resolver
        = Ok (before
                ^ "(parent: ProductRepresentation<TInternalReps> & { sku: string, region: string, }, args: "
                ^ after)).
Proof.
  destruct (keys_by_union_requires_by_intersection Samples.Product
              Samples.shipping_resolver (mkParent "Product")) as (Hkeys & Hreq).
  split.
  - destruct Hkeys as (members & _ & Hout).
    + solve_present.
    + rewrite Hout. eexists. reflexivity.
  - destruct Hreq as (parentTy & Hout & Hsome & _);
      [reflexivity | reflexivity |].
    rewrite Hout, Hsome by discriminate.
    exists "shipping?: ". eexists. reflexivity.
Defined.

(** ** The aggregate interface and the object declarations *)

Module AggregateFacts.
Import StringFacts JoinFacts.

Lemma root_operation_names (n : string) :
  isRootOperationName n = true <->
  n = "Query" \/ n = "Mutation" \/ n = "Subscription".
Proof.
  unfold isRootOperationName.
  rewrite !orb_true_iff, !String.eqb_eq. tauto.
Qed.

Lemma required_is_not_optional (n : string) :
  required_entry n <> optional_entry n.
Proof.
  unfold required_entry, optional_entry. intros H.
  apply app_cancel_l, app_cancel_l in H. discriminate.
Qed.

Lemma entry_required (n : string) :
  resolvers_entry n = required_entry n <-> isRootOperationName n = true.
Proof.
  unfold resolvers_entry.
  destruct (isRootOperationName n); split; intros H;
    try reflexivity; try discriminate.
  symmetry in H. now apply required_is_not_optional in H.
Qed.

Lemma entry_optional (n : string) :
  resolvers_entry n = optional_entry n <-> isRootOperationName n = false.
Proof.
  unfold resolvers_entry.
  destruct (isRootOperationName n); split; intros H;
    try reflexivity; try discriminate.
  now apply required_is_not_optional in H.
Qed.

(** Each object type has its entry on a line of its own in the aggregate
    interface. *)
Lemma entry_in_section (options : Options) (types enums scalars : list string)
      (n : string) :
  In n types ->
  occurs_in (nl ^ resolvers_entry n ^ nl)
    (generateTopLevelResolvers options types enums scalars).
Proof.
  intros Hin. unfold generateTopLevelResolvers.
  cbn [app]. rewrite !List.app_assoc.
  apply join_inner. apply in_or_app. left. apply in_or_app. left.
  now apply in_map.
Qed.

Lemma section_in_output (options : Options) (objects : list ObjectDefinition)
      (enums : list EnumDefinition) (scalars : list ScalarDefinition)
      (out : string) :
  generate options objects enums scalars = Ok out ->
  occurs_in
    (generateTopLevelResolvers options (map name objects)
       (map enum_name enums) (map scalar_name scalars)) out.
Proof.
  rewrite Shape.generate_shape.
  destruct (mapM ObjectDefinition_translate objects) as [ds |];
    [| discriminate].
  cbn [bind]. intros H. apply Ok_inj in H. subst out.
  apply occurs_in_app_r, occurs_in_app_r, occurs_in_app_l, occurs_in_refl.
Qed.

Lemma declaration_in_output (options : Options)
      (objects : list ObjectDefinition) (enums : list EnumDefinition)
      (scalars : list ScalarDefinition) (out : string)
      (o : ObjectDefinition) :
  generate options objects enums scalars = Ok out ->
  In o objects ->
  exists declaration,
    ObjectDefinition_translate o = Ok declaration
    /\ occurs_in declaration out.
Proof.
  rewrite Shape.generate_shape.
  destruct (mapM ObjectDefinition_translate objects) as [ds |] eqn:E;
    [| discriminate].
  cbn [bind]. intros H Hin. apply Ok_inj in H. subst out.
  destruct (mapM_In _ _ _ _ E Hin) as (d & Hd & Hds).
  exists d. split; [exact Hd |].
  do 4 apply occurs_in_app_r. apply occurs_in_app_l.
  now apply join_In.
Qed.

End AggregateFacts.

(** C10: the entry of an object type in the aggregate [Resolvers] interface
    is the required form exactly when the name of the type is [Query],
    [Mutation] or [Subscription], and the optional form otherwise; the
    interface is computed from the names alone, so [isRootType] has no part
    in it. *)
Theorem aggregate_entry_follows_the_name
        (options : Options) (objects : list ObjectDefinition)
        (enums : list EnumDefinition) (scalars : list ScalarDefinition)
        (o : ObjectDefinition) :
  In o objects ->
  let aggregate :=
    generateTopLevelResolvers options (map name objects)
      (map enum_name enums) (map scalar_name scalars) in
  occurs_in (nl ^ resolvers_entry (name o) ^ nl) aggregate
  /\ (resolvers_entry (name o) = "  " ^ name o ^ ": " ^ name o
                                   ^ "Resolver<TContext, TInternalReps>"
      <-> name o = "Query" \/ name o = "Mutation" \/ name o = "Subscription")
  /\ (resolvers_entry (name o) = "  " ^ name o ^ "?: " ^ name o
                                   ^ "Resolver<TContext, TInternalReps>"
      <-> ~ (name o = "Query" \/ name o = "Mutation"
             \/ name o = "Subscription"))
  /\ (forall objects',
        map name objects' = map name objects ->
        generateTopLevelResolvers options (map name objects')
          (map enum_name enums) (map scalar_name scalars) = aggregate)
  /\ (parents_present objects ->
      exists out,
        generate options objects enums scalars = Ok out
        /\ occurs_in aggregate out).
Proof.
  intros Hin aggregate. repeat split.
  - apply AggregateFacts.entry_in_section. now apply in_map.
  - intros H. now apply AggregateFacts.root_operation_names,
      AggregateFacts.entry_required.
  - intros H. now apply AggregateFacts.entry_required,
      AggregateFacts.root_operation_names.
  - intros H Hroot.
    apply AggregateFacts.root_operation_names in Hroot.
    apply AggregateFacts.entry_optional in H. congruence.
  - intros H. apply AggregateFacts.entry_optional.
    destruct (isRootOperationName (name o)) eqn:E; [| reflexivity].
    destruct H. now apply AggregateFacts.root_operation_names.
  - intros objects' ->. reflexivity.
  - intros Hp.
    apply (Shape.generate_returns options objects enums scalars) in Hp
      as (out & Hout).
    exists out. split; [exact Hout |].
    now apply AggregateFacts.section_in_output.
Qed.

Lemma aggregate_entry_follows_the_name_witness :
  isRootType Samples.unflagged_Query = false
  /\ resolvers_entry (name Samples.unflagged_Query)
     = "  Query: QueryResolver<TContext, TInternalReps>"
  /\ isRootType Samples.flagged_RootQuery = true
  /\ resolvers_entry (name Samples.flagged_RootQuery)
     = "  RootQuery?: RootQueryResolver<TContext, TInternalReps>"
  /\ occurs_in
       (nl ^ "  RootQuery?: RootQueryResolver<TContext, TInternalReps>" ^ nl)
       (generateTopLevelResolvers Samples.defaults
          (map name [Samples.unflagged_Query; Samples.flagged_RootQuery])
          [] []).
Proof.
  destruct (aggregate_entry_follows_the_name Samples.defaults
              [Samples.unflagged_Query; Samples.flagged_RootQuery] [] []
              Samples.unflagged_Query) as (_ & Hreq & _);
    [now left |].
  destruct (aggregate_entry_follows_the_name Samples.defaults
              [Samples.unflagged_Query; Samples.flagged_RootQuery] [] []
              Samples.flagged_RootQuery) as (Hline & _ & Hopt & _);
    [right; now left |].
  split; [reflexivity |].
  split; [apply Hreq; now left |].
  split; [reflexivity |].
  split; [apply Hopt; intros [H | [H | H]]; discriminate | exact Hline].
Defined.

(** C5, as stated, fails: an object flagged as a root type under another
    name than the three root operation names has an optional entry in the
    aggregate interface, not a required one; and an entity that is not a
    root type has no field interface: its fields are listed in a root type
    alias. *)
Lemma root_flag_does_not_decide_the_entry :
  exists out,
    generate Samples.defaults [Samples.flagged_RootQuery; Samples.Product]
      [] [] = Ok out
    /\ isRootType Samples.flagged_RootQuery = true
    /\ occurs_in
         (nl ^ "  RootQuery?: RootQueryResolver<TContext, TInternalReps>"
            ^ nl) out
    /\ ~ occurs_in "  RootQuery: RootQueryResolver<TContext, TInternalReps>"
          out
    /\ isRootType Samples.Product = false
    /\ ~ occurs_in "export interface Product {" out
    /\ occurs_in
         "export type Product<TInternalReps = {}> = ProductRepresentation<TInternalReps> & {"
         out.
Proof.
  eexists. split; [reflexivity |].
  split; [reflexivity |].
  split; [apply StringFacts.includes_sound; vm_compute; reflexivity |].
  split; [apply StringFacts.not_includes; vm_compute; reflexivity |].
  split; [reflexivity |].
  split; [apply StringFacts.not_includes; vm_compute; reflexivity |].
  apply StringFacts.includes_sound; vm_compute; reflexivity.
Qed.

(** C5, amended: the entry of an object in the aggregate interface is the
    required form exactly when the name of the object is [Query], [Mutation]
    or [Subscription], and the optional form otherwise, whatever the root
    flag of the object is.  The declaration of a plain object with
    [isRootType] true is the representation alias followed directly by the
    resolver interface, with no interface for its fields; the declaration of
    a plain object with [isRootType] false has the interface
    [export interface <Name> {] with every field in between; the declaration
    of an entity has, whatever its root flag, the root type alias
    [export type <Name><TInternalReps = {}> = ... & {] with every field
    instead of an interface.  Entry and declaration both occur in the output
    of [generate]. *)
Theorem entry_by_name_and_fields_by_flag_and_variant
        (options : Options) (objects : list ObjectDefinition)
        (enums : list EnumDefinition) (scalars : list ScalarDefinition)
        (o : ObjectDefinition) :
  parents_present objects ->
  In o objects ->
  exists out members declaration,
    generate options objects enums scalars = Ok out
    /\ resolver_lines (resolvers o) = Ok members
    /\ ObjectDefinition_translate o = Ok declaration
    /\ occurs_in declaration out
    /\ occurs_in (nl ^ resolvers_entry (name o) ^ nl) out
    /\ (resolvers_entry (name o)
        = "  " ^ name o ^ ": " ^ name o ^ "Resolver<TContext, TInternalReps>"
        <-> name o = "Query" \/ name o = "Mutation"
            \/ name o = "Subscription")
    /\ (resolvers_entry (name o)
        = "  " ^ name o ^ "?: " ^ name o
            ^ "Resolver<TContext, TInternalReps>"
        <-> ~ (name o = "Query" \/ name o = "Mutation"
               \/ name o = "Subscription"))
    /\ (variant o = Plain -> isRootType o = true ->
        declaration
        = plain_representation_alias (name o)
            ^ resolver_interface o members)
    /\ (variant o = Plain -> isRootType o = false ->
        declaration
        = plain_representation_alias (name o)
            ^ Description_translate (object_description o)
            ^ "export interface " ^ name o ^ " {" ^ nl
            ^ join EmptyString
                (map (fun f => translateFieldDefinition f ^ nl) (fields o))
            ^ nl ^ "}" ^ nl
            ^ resolver_interface o members)
    /\ (variant o = Entity ->
        declaration
        = entity_representation_alias (name o)
            (join " | " (map translateCompoundType (keys o)))
            ^ Description_translate (object_description o)
            ^ "export type " ^ name o ^ "<TInternalReps = {}> = " ^ name o
            ^ "Representation<TInternalReps> & {" ^ nl
            ^ join EmptyString
                (map (fun f => translateFieldDefinition f ^ nl) (fields o))
            ^ nl ^ "}" ^ nl
            ^ entity_resolver_interface o members).
Proof.
  intros Hparents Hin.
  destruct (proj1 (Shape.generate_returns options objects enums scalars)
              Hparents) as (out & Hout).
  destruct (AggregateFacts.declaration_in_output _ _ _ _ _ _ Hout Hin)
    as (declaration & Hdecl & Hocc).
  assert (Hrender : Forall renderable (resolvers o)).
  { unfold parents_present in Hparents.
    rewrite Forall_forall in Hparents. now apply Hparents. }
  apply Shape.resolver_lines_render in Hrender as (members & Hmembers).
  exists out, members, declaration.
  split; [exact Hout |]. split; [exact Hmembers |].
  split; [exact Hdecl |]. split; [exact Hocc |].
  split.
  { destruct (AggregateFacts.section_in_output _ _ _ _ _ Hout)
      as (before & after & ->).
    apply StringFacts.occurs_in_app_r, StringFacts.occurs_in_app_l.
    apply AggregateFacts.entry_in_section. now apply in_map. }
  split.
  { split; intros H.
    - now apply AggregateFacts.root_operation_names,
        AggregateFacts.entry_required.
    - now apply AggregateFacts.entry_required,
        AggregateFacts.root_operation_names. }
  split.
  { split.
    - intros H Hroot.
      apply AggregateFacts.root_operation_names in Hroot.
      apply AggregateFacts.entry_optional in H. congruence.
    - intros H. apply AggregateFacts.entry_optional.
      destruct (isRootOperationName (name o)) eqn:E; [| reflexivity].
      destruct H. now apply AggregateFacts.root_operation_names. }
  unfold ObjectDefinition_translate in Hdecl.
  split; [| split].
  - intros Hv Ht.
    rewrite Hv, Shape.object_shape, Hmembers, Ht in Hdecl.
    cbn [bind append] in Hdecl. now apply JoinFacts.Ok_inj in Hdecl.
  - intros Hv Hf.
    rewrite Hv, Shape.object_shape, Hmembers, Hf in Hdecl.
    cbn [bind] in Hdecl. apply JoinFacts.Ok_inj in Hdecl.
    subst declaration. unfold field_interface, field_lines.
    now rewrite !StringFacts.app_assoc.
  - intros Hv.
    rewrite Hv, Shape.entity_shape, Hmembers in Hdecl.
    cbn [bind] in Hdecl. apply JoinFacts.Ok_inj in Hdecl.
    subst declaration. unfold entity_root_alias, field_lines.
    now rewrite !StringFacts.app_assoc.
Qed.

Lemma entry_by_name_and_fields_by_flag_and_variant_witness :
  exists out,
    generate Samples.defaults
      [Samples.Query; Samples.User; Samples.flagged_RootQuery] [] [] = Ok out
    /\ occurs_in (nl ^ "  Query: QueryResolver<TContext, TInternalReps>" ^ nl)
         out
    /\ occurs_in
         (nl ^ "  RootQuery?: RootQueryResolver<TContext, TInternalReps>"
            ^ nl) out
    /\ (exists members,
          ObjectDefinition_translate Samples.Query
          = Ok (plain_representation_alias "Query"
                  ^ resolver_interface Samples.Query members))
    /\ (exists members,
          ObjectDefinition_translate Samples.User
          = Ok (plain_representation_alias "User"
                  ^ "export interface User {" ^ nl
                  ^ "id?: string" ^ nl
                  ^ "name?: Nullable<string>" ^ nl
                  ^ nl ^ "}" ^ nl
                  ^ resolver_interface Samples.User members)).
Proof.
  assert (Hp : parents_present
                 [Samples.Query; Samples.User; Samples.flagged_RootQuery])
    by solve_present.
  destruct (entry_by_name_and_fields_by_flag_and_variant Samples.defaults
              [Samples.Query; Samples.User; Samples.flagged_RootQuery] [] []
              Samples.Query Hp)
    as (out & qmembers & qdecl & Hout & _ & Hq & _ & Hqentry & Hqreq & _
        & Hqroot & _);
    [now left |].
  destruct (entry_by_name_and_fields_by_flag_and_variant Samples.defaults
              [Samples.Query; Samples.User; Samples.flagged_RootQuery] [] []
              Samples.User Hp)
    as (out' & umembers & udecl & Hout' & _ & Hu & _ & _ & _ & _ & _
        & Huplain & _);
    [right; now left |].
  destruct (entry_by_name_and_fields_by_flag_and_variant Samples.defaults
              [Samples.Query; Samples.User; Samples.flagged_RootQuery] [] []
              Samples.flagged_RootQuery Hp)
    as (out'' & _ & _ & Hout'' & _ & _ & _ & Hrentry & _ & Hropt & _);
    [right; right; now left |].
  rewrite Hout in Hout', Hout''.
  apply JoinFacts.Ok_inj in Hout', Hout''. subst out' out''.
  exists out. split; [exact Hout |].
  split.
  { rewrite (proj2 Hqreq (or_introl eq_refl)) in Hqentry. exact Hqentry. }
  split.
  { rewrite (proj2 Hropt) in Hrentry; [exact Hrentry |].
    intros [H | [H | H]]; discriminate. }
  split.
  - exists qmembers. rewrite Hq, (Hqroot eq_refl eq_refl). reflexivity.
  - exists umembers. rewrite Hu, (Huplain eq_refl eq_refl). reflexivity.
Defined.

(** ** The output of [generate] *)

Module OutputFacts.
Import StringFacts JoinFacts.

Lemma ends_with_app (suffix a b : string) :
  ends_with suffix b -> ends_with suffix (a ^ b).
Proof. intros (before & ->). exists (a ^ before). now rewrite app_assoc. Qed.

Lemma ends_with_refl (s : string) : ends_with s s.
Proof. now exists EmptyString. Qed.

Lemma resolver_interface_end (t : ObjectDefinition) (members : list string) :
  ends_with (nl ^ "}" ^ nl) (resolver_interface t members).
Proof.
  unfold resolver_interface.
  repeat first [apply ends_with_refl | apply ends_with_app].
Qed.

Lemma entity_resolver_interface_end (t : ObjectDefinition)
      (members : list string) :
  ends_with (nl ^ "}" ^ nl) (entity_resolver_interface t members).
Proof.
  unfold entity_resolver_interface.
  repeat first [apply ends_with_refl | apply ends_with_app].
Qed.

(** Every object declaration closes with an empty line, a brace and a
    line feed. *)
Lemma declaration_end (o : ObjectDefinition) (declaration : string) :
  ObjectDefinition_translate o = Ok declaration ->
  ends_with (nl ^ "}" ^ nl) declaration.
Proof.
  unfold ObjectDefinition_translate.
  destruct (variant o);
    [rewrite Shape.object_shape | rewrite Shape.entity_shape];
    (destruct (resolver_lines (resolvers o)) as [members |];
     [| discriminate]);
    cbn [bind]; intros H; apply Ok_inj in H; subst declaration;
    do 2 apply ends_with_app.
  - apply resolver_interface_end.
  - apply entity_resolver_interface_end.
Qed.

Lemma aggregate_end (options : Options) (types enums scalars : list string) :
  ends_with ("}" ^ nl)
    (generateTopLevelResolvers options types enums scalars).
Proof.
  unfold generateTopLevelResolvers. rewrite !List.app_assoc.
  rewrite join_app; [| | discriminate].
  - do 2 apply ends_with_app. apply ends_with_refl.
  - cbn [app]. discriminate.
Qed.

Lemma last_ascii_join (sep : string) (c : ascii) (xs : list string) :
  xs <> [] ->
  Forall (fun x => last_ascii x = Some c) xs ->
  last_ascii (join sep xs) = Some c.
Proof.
  intros Hne H. induction H as [| x xs Hx Hxs IH]; [congruence |].
  destruct xs as [| y ys]; [exact Hx |].
  rewrite join_cons by discriminate. rewrite <- app_assoc.
  rewrite last_ascii_app.
  - apply IH. discriminate.
  - intros E. assert (Hl : last_ascii (join sep (y :: ys)) = Some c)
      by (apply IH; discriminate).
    rewrite E in Hl. discriminate.
Qed.

Lemma last_ascii_quoted (value : string) :
  last_ascii (dq ^ value ^ dq) = Some DQUOTE.
Proof. rewrite <- app_assoc. now rewrite last_ascii_app. Qed.

(** An enum declaration never ends in a line feed. *)
Lemma enum_declaration_end (options : Options) (t : EnumDefinition) :
  exists c, last_ascii (translateEnumDefinition options t) = Some c
            /\ c <> LF.
Proof.
  unfold translateEnumDefinition.
  destruct (__experimentalInternalEnumValueSupport options).
  - exists "y"%char. split; [| discriminate].
    cbn [join String.concat]. rewrite <- !app_assoc.
    now rewrite last_ascii_app.
  - destruct (values t) as [| v vs] eqn:E.
    + exists " "%char. split; [| discriminate].
      unfold enum_options. cbn [map join String.concat].
      rewrite app_empty_r, <- app_assoc. now rewrite last_ascii_app.
    + exists DQUOTE. split; [| discriminate].
      rewrite <- !app_assoc. rewrite last_ascii_app.
      * unfold enum_options. apply last_ascii_join.
        -- discriminate.
        -- apply Forall_map, Forall_forall. intros x _.
           apply last_ascii_quoted.
      * intros H.
        assert (Hl : last_ascii (enum_options (v :: vs)) = Some DQUOTE).
        { unfold enum_options. apply last_ascii_join; [discriminate |].
          apply Forall_map, Forall_forall. intros x _.
          apply last_ascii_quoted. }
        rewrite H in Hl. discriminate.
Qed.

Lemma scalar_declaration_end (t : ScalarDefinition) :
  last_ascii (translateScalarDefinition t) = Some "y"%char.
Proof.
  unfold translateScalarDefinition. rewrite <- !app_assoc.
  now rewrite last_ascii_app.
Qed.

(** Consecutive definitions of one list are rendered with a single line
    feed in between. *)
Lemma neighbours_in_join {A : Type} (f : A -> string) (x y : A)
      (before after : list A) :
  occurs_in (f x ^ nl ^ f y)
    (join nl (map f (before ++ x :: y :: after))).
Proof. rewrite map_app. cbn [map]. apply join_neighbours. Qed.

Lemma mapM_split {A B : Type} (f : A -> result B) (xs1 xs2 : list A)
      (ys : list B) :
  mapM f (xs1 ++ xs2) = Ok ys ->
  exists ys1 ys2,
    ys = ys1 ++ ys2 /\ mapM f xs1 = Ok ys1 /\ mapM f xs2 = Ok ys2.
Proof.
  revert ys. induction xs1 as [| x xs1 IH]; cbn [app mapM]; intros ys H.
  - now exists [], ys.
  - destruct (f x) as [y |]; cbn [bind] in *; [| discriminate].
    destruct (mapM f (xs1 ++ xs2)) as [ys' |] eqn:E; cbn [bind] in *;
      [| discriminate].
    apply Ok_inj in H. subst ys.
    destruct (IH ys' eq_refl) as (ys1 & ys2 & -> & H1 & H2).
    exists (y :: ys1), ys2. rewrite H1. cbn [bind]. now repeat split.
Qed.

End OutputFacts.

(** C2, as stated, fails: two consecutive enum declarations are separated by
    one line feed, with no blank line in between. *)
Lemma consecutive_enums_without_blank_line :
  exists out,
    generate Samples.defaults [] [Samples.Color; Samples.Shade] [] = Ok out
    /\ occurs_in
         ("export type Color = " ^ dq ^ "RED" ^ dq ^ " | " ^ dq ^ "BLUE" ^ dq
            ^ nl ^ "export type Shade = " ^ dq ^ "DARK" ^ dq) out
    /\ ~ blank_line_between
           (translateEnumDefinition Samples.defaults Samples.Color)
           (translateEnumDefinition Samples.defaults Samples.Shade) out.
Proof.
  eexists. split; [reflexivity |]. split.
  - apply StringFacts.includes_sound. vm_compute. reflexivity.
  - apply StringFacts.not_includes. vm_compute. reflexivity.
Qed.

(** C2, amended: [generate] returns the header, the aggregate interface, the
    object declarations, the enum declarations and the scalar declarations
    in this order, the five sections and the declarations inside a section
    being joined by a single line feed.  The header, the aggregate interface
    and every object declaration end in a line feed of their own, so that a
    blank line follows an object declaration; enum and scalar declarations do
    not end in a line feed, and consecutive ones stand on adjacent lines. *)
Theorem sections_joined_by_single_line_feeds
        (options : Options) (objects : list ObjectDefinition)
        (enums : list EnumDefinition) (scalars : list ScalarDefinition) :
  let aggregate :=
    generateTopLevelResolvers options (map name objects)
      (map enum_name enums) (map scalar_name scalars) in
  generate options objects enums scalars
  = (declarations <- mapM ObjectDefinition_translate objects ;;
     Ok (generateHeader ^ nl
           ^ aggregate ^ nl
           ^ join nl declarations ^ nl
           ^ join nl (map (translateEnumDefinition options) enums) ^ nl
           ^ join nl (map translateScalarDefinition scalars)))
  /\ ends_with nl generateHeader
  /\ ends_with ("}" ^ nl) aggregate
  /\ (forall o declaration,
        ObjectDefinition_translate o = Ok declaration ->
        ends_with (nl ^ "}" ^ nl) declaration)
  /\ (forall e, exists c,
        last_ascii (translateEnumDefinition options e) = Some c /\ c <> LF)
  /\ (forall s, last_ascii (translateScalarDefinition s) = Some "y"%char)
  /\ (forall out,
        generate options objects enums scalars = Ok out ->
        (forall before o1 o2 after,
           objects = before ++ o1 :: o2 :: after ->
           exists body1 d2,
             ObjectDefinition_translate o1 = Ok (body1 ^ nl)
             /\ ObjectDefinition_translate o2 = Ok d2
             /\ blank_line_between body1 d2 out)
        /\ (forall before e1 e2 after,
              enums = before ++ e1 :: e2 :: after ->
              occurs_in (translateEnumDefinition options e1 ^ nl
                           ^ translateEnumDefinition options e2) out)
        /\ (forall before s1 s2 after,
              scalars = before ++ s1 :: s2 :: after ->
              occurs_in (translateScalarDefinition s1 ^ nl
                           ^ translateScalarDefinition s2) out)).
Proof.
  intros aggregate.
  split; [apply Shape.generate_shape |].
  split; [unfold generateHeader;
          repeat first [apply OutputFacts.ends_with_refl
                       | apply OutputFacts.ends_with_app] |].
  split; [apply OutputFacts.aggregate_end |].
  split; [apply OutputFacts.declaration_end |].
  split; [apply OutputFacts.enum_declaration_end |].
  split; [apply OutputFacts.scalar_declaration_end |].
  intros out. rewrite Shape.generate_shape. fold aggregate.
  destruct (mapM ObjectDefinition_translate objects) as [ds |] eqn:E;
    [| discriminate].
  cbn [bind]. intros H. apply JoinFacts.Ok_inj in H. subst out.
  split; [| split].
  - intros before o1 o2 after ->.
    apply OutputFacts.mapM_split in E as (ds1 & ds2 & -> & _ & E2).
    cbn [mapM] in E2.
    destruct (ObjectDefinition_translate o1) as [d1 |] eqn:E1;
      [| discriminate].
    destruct (ObjectDefinition_translate o2) as [d2 |] eqn:E2';
      [| discriminate].
    cbn [bind] in E2.
    destruct (mapM ObjectDefinition_translate after) as [ds3 |];
      [| discriminate].
    cbn [bind] in E2. apply JoinFacts.Ok_inj in E2. subst ds2.
    destruct (OutputFacts.declaration_end _ _ E1) as (body & Hbody).
    exists (body ^ nl ^ "}"), d2.
    split; [rewrite Hbody, !StringFacts.app_assoc; reflexivity |].
    split; [reflexivity |].
    unfold blank_line_between.
    do 4 apply StringFacts.occurs_in_app_r.
    apply StringFacts.occurs_in_app_l.
    destruct (JoinFacts.join_neighbours nl d1 d2 ds1 ds3)
      as (p & q & Hjoin).
    rewrite Hjoin, Hbody. exists p, q.
    now rewrite !StringFacts.app_assoc.
  - intros before e1 e2 after ->.
    do 6 apply StringFacts.occurs_in_app_r.
    apply StringFacts.occurs_in_app_l.
    apply OutputFacts.neighbours_in_join.
  - intros before s1 s2 after ->.
    do 8 apply StringFacts.occurs_in_app_r.
    apply OutputFacts.neighbours_in_join.
Qed.

Lemma sections_joined_by_single_line_feeds_witness :
  exists out body,
    generate Samples.defaults [Samples.User; Samples.Product]
      [Samples.Color; Samples.Shade] [Samples.Date] = Ok out
    /\ ObjectDefinition_translate Samples.User = Ok (body ^ nl)
    /\ occurs_in (body ^ nl ^ nl ^ "type ProductRepresentation<") out
    /\ occurs_in
         (translateEnumDefinition Samples.defaults Samples.Color ^ nl
            ^ translateEnumDefinition Samples.defaults Samples.Shade) out.
Proof.
  destruct (sections_joined_by_single_line_feeds Samples.defaults
              [Samples.User; Samples.Product]
              [Samples.Color; Samples.Shade] [Samples.Date])
    as (_ & _ & _ & _ & _ & _ & Hout).
  destruct (proj1 (Shape.generate_returns Samples.defaults
                     [Samples.User; Samples.Product]
                     [Samples.Color; Samples.Shade] [Samples.Date]))
    as (out & Hgen); [solve_present |].
  destruct (Hout out Hgen) as (Hobjects & Henums & _).
  destruct (Hobjects [] Samples.User Samples.Product [] eq_refl)
    as (body & d2 & Hbody & Hd2 & Hblank).
  exists out, body.
  split; [exact Hgen |]. split; [exact Hbody |]. split.
  - destruct Hblank as (p & q & ->).
    assert (Hd : exists rest, d2 = "type ProductRepresentation<" ^ rest).
    { apply StringFacts.prefix_sound.
      apply JoinFacts.Ok_inj in Hd2. subst d2. vm_compute. reflexivity. }
    destruct Hd as (rest & ->).
    exists p, (rest ^ q). now rewrite !StringFacts.app_assoc.
  - apply (Henums [] Samples.Color Samples.Shade [] eq_refl).
Defined.

(** C1, as stated, fails: for an entity without key sets [generate] does not
    abort; it returns the whole output, in which the representation alias of
    the entity is intersected with an empty pair of parentheses. *)
Lemma keyless_entity_is_generated :
  exists out,
    generate Samples.defaults [Samples.Keyless] [] [] = Ok out
    /\ occurs_in
         ("type KeylessRepresentation<TInternalReps extends Record<string, any>> = Index<TInternalReps, "
            ^ dq ^ "Keyless" ^ dq ^ ", {}> & ()" ^ nl) out
    /\ occurs_in "export interface KeylessResolver<" out.
Proof.
  eexists. split; [reflexivity |].
  split; apply StringFacts.includes_sound; vm_compute; reflexivity.
Qed.

(** C1, amended: key sets never make [generate] abort.  When every resolver
    that is rendered as a callable has its parent reference, [generate]
    returns the complete output, and an entity whose key-set list is empty
    appears in it with the representation alias [... & ()].  [generate]
    aborts, with a [TypeError] and without output, exactly when the parent
    reference of such a resolver is missing. *)
Theorem generate_aborts_only_on_a_missing_parent
        (options : Options) (objects : list ObjectDefinition)
        (enums : list EnumDefinition) (scalars : list ScalarDefinition) :
  (parents_present objects ->
   exists out,
     generate options objects enums scalars = Ok out
     /\ forall o,
          In o objects -> variant o = Entity -> keys o = [] ->
          occurs_in
            ("type " ^ name o
               ^ "Representation<TInternalReps extends Record<string, any>> = Index<TInternalReps, "
               ^ dq ^ name o ^ dq ^ ", {}> & ()" ^ nl ^ nl) out)
  /\ (~ parents_present objects ->
      generate options objects enums scalars = TypeError).
Proof.
  split.
  - intros Hp.
    destruct (proj1 (Shape.generate_returns options objects enums scalars)
                Hp) as (out & Hout).
    exists out. split; [exact Hout |].
    intros o Hin Hv Hk.
    destruct (AggregateFacts.declaration_in_output _ _ _ _ _ _ Hout Hin)
      as (declaration & Hdecl & (p & q & ->)).
    apply StringFacts.occurs_in_app_r, StringFacts.occurs_in_app_l.
    unfold ObjectDefinition_translate in Hdecl.
    rewrite Hv, Shape.entity_shape, Hk in Hdecl.
    destruct (resolver_lines (resolvers o)) as [members |];
      [| discriminate].
    cbn [bind map join String.concat] in Hdecl.
    apply JoinFacts.Ok_inj in Hdecl. subst declaration.
    apply StringFacts.occurs_in_app_l.
    unfold entity_representation_alias. apply StringFacts.occurs_in_refl.
  - intros Hnot.
    destruct (generate options objects enums scalars) as [out |] eqn:E;
      [| reflexivity].
    destruct Hnot.
    apply (Shape.generate_returns options objects enums scalars).
    now exists out.
Qed.

Lemma generate_aborts_only_on_a_missing_parent_witness :
  (exists out,
     generate Samples.defaults [Samples.User; Samples.Keyless] [] [] = Ok out
     /\ occurs_in
          ("type KeylessRepresentation<TInternalReps extends Record<string, any>> = Index<TInternalReps, "
             ^ dq ^ "Keyless" ^ dq ^ ", {}> & ()" ^ nl ^ nl) out)
  /\ generate Samples.defaults [Samples.User; Samples.Orphaned] [] []
     = TypeError.
Proof.
  split.
  - destruct (generate_aborts_only_on_a_missing_parent Samples.defaults
                [Samples.User; Samples.Keyless] [] []) as (Hok & _).
    destruct Hok as (out & Hout & Hkeyless); [solve_present |].
    exists out. split; [exact Hout |].
    apply (Hkeyless Samples.Keyless); [right; now left | reflexivity ..].
  - destruct (generate_aborts_only_on_a_missing_parent Samples.defaults
                [Samples.User; Samples.Orphaned] [] []) as (_ & Hfault).
    apply Hfault. intros Hp.
    apply Forall_inv_tail, Forall_inv, Forall_inv in Hp.
    destruct Hp as [H | H]; [discriminate | now apply H].
Defined.

(** * Further properties of the translator *)

(** ** Lines and lengths *)

Module LineFacts.
Import StringFacts JoinFacts.

Lemma length_app (a b : string) :
  String.length (a ^ b) = String.length a + String.length b.
Proof. induction a as [| c a IH]; simpl; [reflexivity | now rewrite IH]. Qed.

Lemma app_cancel_r (a b s : string) : a ^ s = b ^ s -> a = b.
Proof.
  revert b. induction a as [| c a IH]; intros [| d b] H.
  - reflexivity.
  - apply (f_equal String.length) in H. cbn [append] in H.
    cbn [String.length] in H. rewrite length_app in H. lia.
  - apply (f_equal String.length) in H. cbn [append] in H.
    cbn [String.length] in H. rewrite length_app in H. lia.
  - cbn [append] in H. injection H as -> H. f_equal. now apply IH.
Qed.

(** No text is its own proper extension. *)
Lemma not_self_wrapped (a s b : string) :
  a <> EmptyString -> s <> a ^ s ^ b.
Proof.
  intros Ha H. apply (f_equal String.length) in H.
  rewrite !length_app in H. destruct a; [congruence |].
  cbn [String.length] in H. lia.
Qed.

Lemma split_lines_nonempty (s : string) : split_lines s <> [].
Proof.
  induction s as [| c s IH]; cbn [split_lines]; [discriminate |].
  destruct (Ascii.eqb c LF); [discriminate |].
  destruct (split_lines s); discriminate.
Qed.

(** Splitting at a line feed splits the list of lines. *)
Lemma split_lines_app (a b : string) :
  split_lines (a ^ nl ^ b) = split_lines a ++ split_lines b.
Proof.
  induction a as [| c a IH]; cbn [append split_lines].
  - unfold nl. cbn [append split_lines]. now rewrite Ascii.eqb_refl.
  - destruct (Ascii.eqb c LF); [now rewrite IH |].
    rewrite IH. pose proof (split_lines_nonempty a) as Hne.
    destruct (split_lines a); [congruence | reflexivity].
Qed.

Lemma split_lines_one_line (s : string) :
  Forall one_line (split_lines s).
Proof.
  induction s as [| c s IH]; cbn [split_lines].
  - now repeat constructor.
  - destruct (Ascii.eqb c LF) eqn:E.
    + constructor; [reflexivity | exact IH].
    + destruct (split_lines s) as [| piece pieces]; inversion IH; subst.
      * repeat constructor. unfold one_line. cbn [occurs].
        now rewrite Ascii.eqb_sym, E.
      * constructor; [| assumption]. unfold one_line in *. cbn [occurs].
        rewrite Ascii.eqb_sym, E. assumption.
Qed.

(** [split] undoes [join] on texts without line feeds ... *)
Lemma split_lines_join (xs : list string) :
  xs <> [] -> Forall one_line xs -> split_lines (join nl xs) = xs.
Proof.
  intros Hne H. induction H as [| x xs Hx Hxs IH]; [congruence |].
  destruct xs as [| y ys].
  - cbn [join String.concat]. now apply TypeFacts.split_lines_single.
  - rewrite join_cons by discriminate.
    rewrite TypeFacts.split_lines_first by exact Hx.
    f_equal. apply IH. discriminate.
Qed.

(** ... and [join] undoes [split]. *)
Lemma join_split_lines (s : string) : join nl (split_lines s) = s.
Proof.
  induction s as [| c s IH]; cbn [split_lines]; [reflexivity |].
  pose proof (split_lines_nonempty s) as Hne.
  destruct (Ascii.eqb c LF) eqn:E.
  - apply Ascii.eqb_eq in E. subst c.
    rewrite join_cons by assumption. now rewrite IH.
  - destruct (split_lines s) as [| piece pieces]; [congruence |].
    destruct pieces as [| piece' pieces].
    + cbn [join String.concat] in *. now rewrite IH.
    + rewrite join_cons in * by discriminate.
      cbn [append]. now rewrite IH.
Qed.

(** Joining with a line feed and a prefix is prefixing every line. *)
Lemma join_prefixed (prefix : string) (xs : list string) :
  xs <> [] ->
  prefix ^ join (nl ^ prefix) xs = join nl (map (append prefix) xs).
Proof.
  intros Hne. induction xs as [| x xs IH]; [congruence |].
  destruct xs as [| y ys]; [reflexivity |].
  rewrite join_cons by discriminate. cbn [map].
  rewrite (join_cons nl (prefix ^ x)) by discriminate.
  cbn [map] in IH. rewrite <- IH by discriminate.
  now rewrite !app_assoc.
Qed.

Lemma one_line_app (a b : string) :
  one_line a -> one_line b -> one_line (a ^ b).
Proof.
  unfold one_line. intros Ha Hb. now rewrite occurs_app, Ha, Hb.
Qed.

Lemma count_char_app (c : ascii) (a b : string) :
  count_char c (a ^ b) = count_char c a + count_char c b.
Proof.
  induction a as [| x a IH]; cbn [append count_char]; [reflexivity |].
  rewrite IH. lia.
Qed.

End LineFacts.

(** ** Descriptions and types *)

(** X1: the comment rendered for a description is the line [/**], then the
    lines of the description in order, each behind [ * ], then the line
    [ */] and a final line feed; joining the lines of the description gives
    the description back, so nothing of the text is dropped or escaped. *)
Theorem description_comment_lines (text : string) :
  split_lines (translateDescription text)
  = ["/**"] ++ map (append " * ") (split_lines text) ++ [" */"; EmptyString]
  /\ join nl (split_lines text) = text.
Proof.
  split; [| apply LineFacts.join_split_lines].
  assert (Hjoin : translateDescription text
                  = join nl (["/**"] ++ map (append " * ") (split_lines text)
                               ++ [" */"; EmptyString])).
  { unfold translateDescription.
    pose proof (LineFacts.split_lines_nonempty text) as Hne.
    rewrite JoinFacts.join_app; [| discriminate |].
    - rewrite JoinFacts.join_app; [| | discriminate].
      + rewrite <- (LineFacts.join_prefixed " * ") by assumption.
        cbn [join String.concat].
        now rewrite !StringFacts.app_assoc, StringFacts.app_empty_r.
      + destruct (split_lines text); [congruence | discriminate].
    - destruct (split_lines text); discriminate. }
  rewrite Hjoin. apply LineFacts.split_lines_join; [discriminate |].
  apply Forall_app. split; [now repeat constructor |].
  apply Forall_app. split; [| now repeat constructor].
  apply Forall_map.
  eapply Forall_impl; [| apply LineFacts.split_lines_one_line].
  intros line Hline. now apply LineFacts.one_line_app.
Qed.

(** X2: the contextual nullability flag shows in the rendering of every
    named type and of every list type: rendered as nullable, such a type is
    its non-null rendering inside [Nullable<...>], which is never equal to
    the non-null rendering itself; a non-null type renders the same under
    both flags. *)
Theorem nullable_flag_is_visible (name : string) (base : Type_) :
  Type_translate (NamedType name) true
  = "Nullable<" ^ Type_translate (NamedType name) false ^ ">"
  /\ Type_translate (NamedType name) true
     <> Type_translate (NamedType name) false
  /\ Type_translate (ListType base) true
     = "Nullable<" ^ Type_translate (ListType base) false ^ ">"
  /\ Type_translate (ListType base) true
     <> Type_translate (ListType base) false
  /\ Type_translate (NonNullType base) true
     = Type_translate (NonNullType base) false.
Proof.
  assert (Hlist : Type_translate (ListType base) true
                  = "Nullable<" ^ Type_translate (ListType base) false ^ ">").
  { cbn [Type_translate]. now rewrite !StringFacts.app_assoc. }
  split; [reflexivity |].
  split.
  { cbn [Type_translate]. unfold translateNamedType. intros H.
    symmetry in H. now apply LineFacts.not_self_wrapped in H. }
  split; [exact Hlist |].
  split; [| reflexivity].
  rewrite Hlist. intros H. symmetry in H.
  now apply LineFacts.not_self_wrapped in H.
Qed.

(** X3: the rendering of a list type keeps both nullabilities apart: two
    list renderings are equal exactly when the container flags are equal
    and the elements render alike, so a nullable list of non-null elements
    never renders like a non-null list of nullable elements. *)
Theorem list_rendering_keeps_both_nullabilities
        (a b : Type_) (n m : bool) :
  (Type_translate (ListType a) n = Type_translate (ListType b) m
   <-> n = m /\ Type_translate a true = Type_translate b true)
  /\ Type_translate (ListType (NonNullType a)) true
     <> Type_translate (NonNullType (ListType a)) true.
Proof.
  split.
  - split.
    + destruct n, m; cbn [Type_translate]; intros H;
        try discriminate; split; try reflexivity.
      * apply StringFacts.app_cancel_l in H.
        now apply LineFacts.app_cancel_r in H.
      * apply StringFacts.app_cancel_l in H.
        now apply LineFacts.app_cancel_r in H.
    + intros (-> & H). cbn [Type_translate]. now rewrite H.
  - cbn [Type_translate]. discriminate.
Qed.

Module BracketFacts.

Lemma count_getName (c : ascii) (name : string) :
  c = "<"%char \/ c = ">"%char ->
  count_char c (getName name) = count_char c name.
Proof.
  intros Hc. unfold getName.
  destruct (String.eqb_spec name "Int") as [-> | _];
    [destruct Hc as [-> | ->]; reflexivity |].
  destruct (String.eqb_spec name "Boolean") as [-> | _];
    [destruct Hc as [-> | ->]; reflexivity |].
  destruct (String.eqb_spec name "ID") as [-> | _];
    [destruct Hc as [-> | ->]; reflexivity |].
  destruct (String.eqb_spec name "String") as [-> | _];
    [destruct Hc as [-> | ->]; reflexivity |].
  reflexivity.
Qed.

End BracketFacts.

(** X4: rendering a type adds as many opening as closing angle brackets:
    the brackets of the rendering exceed those of the name at the bottom of
    the type by the same number on both sides, so a type over a name
    without angle brackets renders with balanced brackets. *)
Theorem type_rendering_balances_brackets (t : Type_) (nullable : bool) :
  count_char "<" (Type_translate t nullable) + count_char ">" (named_leaf t)
  = count_char ">" (Type_translate t nullable) + count_char "<" (named_leaf t).
Proof.
  revert nullable.
  induction t as [name | base IH | base IH]; intros nullable;
    cbn [Type_translate named_leaf].
  - unfold translateNamedType.
    destruct nullable; rewrite ?LineFacts.count_char_app,
      !BracketFacts.count_getName by auto; simpl; lia.
  - apply IH.
  - specialize (IH true).
    destruct nullable; rewrite !LineFacts.count_char_app; simpl; lia.
Qed.

(** ** Records, fields and signatures *)

Module FragmentFacts.
Import StringFacts JoinFacts.

Lemma occurs_in_trans (a b c : string) :
  occurs_in a b -> occurs_in b c -> occurs_in a c.
Proof.
  intros (p & q & ->) (p' & q' & ->).
  exists (p' ^ p), (q ^ q'). now rewrite !app_assoc.
Qed.

Lemma occurs_in_at_start (x rest s : string) :
  s = x ^ rest -> occurs_in x s.
Proof. intros ->. now exists EmptyString, rest. Qed.

(** An element of a joined list that is itself enclosed by separators
    stands between two separators. *)
Lemma join_enclosed (sep x : string) (xs : list string) :
  In x xs -> occurs_in (sep ^ x ^ sep) (sep ^ join sep xs ^ sep).
Proof.
  intros Hin.
  pose proof (join_inner sep x EmptyString EmptyString xs Hin) as H.
  assert (Hne : xs <> []) by (destruct xs; [contradiction | discriminate]).
  rewrite join_cons in H by (destruct xs; discriminate).
  rewrite join_app in H; [| assumption | discriminate].
  cbn [join String.concat append] in H.
  now rewrite app_empty_r in H.
Qed.

Lemma join_last_line (x : string) (xs : list string) :
  xs <> [] -> join nl (xs ++ [x ^ nl]) = join nl (xs ++ [x; EmptyString]).
Proof.
  intros Hne. rewrite !join_app; try assumption; try discriminate.
  cbn [join String.concat]. now rewrite app_empty_r.
Qed.

Lemma resolver_line (rs : list ResolverDefinition) (members : list string)
      (r : ResolverDefinition) :
  resolver_lines rs = Ok members -> In r rs ->
  exists member,
    translateResolverDefinition r = Ok member /\ In (member ^ nl) members.
Proof.
  intros H Hin. unfold resolver_lines in H.
  destruct (mapM_In _ _ _ _ H Hin) as (line & Hline & Hin').
  destruct (translateResolverDefinition r) as [member |];
    [| discriminate].
  cbn [bind] in Hline. apply Ok_inj in Hline. subst line.
  now exists member.
Qed.

Lemma field_shape (f : FieldDefinition) :
  translateFieldDefinition f
  = Description_translate (field_description f) ^ field_name f ^ "?: "
      ^ Type_translate (field_type f) true.
Proof.
  unfold translateFieldDefinition. rewrite !join_empty_cons.
  cbn [join String.concat]. now rewrite app_empty_r.
Qed.

Lemma argument_shape (a : ArgumentDefinition) :
  translateArgumentDefinition a
  = Description_translate (arg_description a) ^ arg_name a
      ^ (if instanceof_NonNullType (arg_type a) then ": " else "?: ")
      ^ Type_translate (arg_type a) false.
Proof.
  unfold translateArgumentDefinition. rewrite !join_empty_cons.
  cbn [join String.concat]. now rewrite app_empty_r.
Qed.

Lemma nullable_wrap (t : Type_) :
  (forall base, t <> NonNullType base) ->
  Type_translate t true = "Nullable<" ^ Type_translate t false ^ ">".
Proof.
  intros Hnot. rewrite <- TypeFacts.nullable_core.
  destruct t as [name | base | base]; [reflexivity | | reflexivity].
  now destruct (Hnot base).
Qed.

End FragmentFacts.

(** Finds a fragment that starts at a piece of a concatenation. *)
Ltac find_fragment :=
  repeat first
    [ eapply FragmentFacts.occurs_in_at_start;
      rewrite ?StringFacts.app_assoc; reflexivity
    | apply StringFacts.occurs_in_app_r ].

(** X5: a compound type renders as a record in braces that lists every
    member, as its name, a colon and its type rendered as nullable by
    default; the record of two member lists put together is the two bodies
    put together, and the empty member list gives [{ }]. *)
Theorem compound_record_lists_every_member (ms1 ms2 : list Member) :
  exists body1 body2,
    translateCompoundType (mkCompoundType ms1) = "{ " ^ body1 ^ "}"
    /\ translateCompoundType (mkCompoundType ms2) = "{ " ^ body2 ^ "}"
    /\ translateCompoundType (mkCompoundType (ms1 ++ ms2))
       = "{ " ^ body1 ^ body2 ^ "}"
    /\ (ms1 = [] -> body1 = EmptyString)
    /\ (forall m,
          In m ms1 ->
          occurs_in (member_name m ^ ": "
                       ^ Type_translate (member_type m) true ^ ", ") body1).
Proof.
  pose (text := fun type : Member =>
                  member_name type ^ ": "
                    ^ Type_translate_default (member_type type) ^ ", ").
  assert (Hshape : forall ms,
             translateCompoundType (mkCompoundType ms)
             = "{ " ^ join EmptyString (map text ms) ^ "}").
  { intros ms. unfold translateCompoundType. cbn [types].
    rewrite JoinFacts.join_empty_app, JoinFacts.join_empty_app.
    reflexivity. }
  exists (join EmptyString (map text ms1)), (join EmptyString (map text ms2)).
  rewrite !Hshape, map_app, JoinFacts.join_empty_app.
  repeat split.
  - now rewrite !StringFacts.app_assoc.
  - intros ->. reflexivity.
  - intros m Hin. apply JoinFacts.join_In.
    apply (in_map text) in Hin. exact Hin.
Qed.

Lemma compound_record_lists_every_member_witness :
  translateCompoundType Samples.key_sku_region
  = "{ sku: string, region: string, }"
  /\ translateCompoundType Samples.no_requires = "{ }".
Proof.
  destruct (compound_record_lists_every_member
              [mkMember "sku" (NonNullType (NamedType "String"))]
              [mkMember "region" (NonNullType (NamedType "String"))])
    as (b1 & b2 & H1 & H2 & H12 & _ & _).
  destruct (compound_record_lists_every_member [] [])
    as (e1 & e2 & He & _ & _ & Hempty & _).
  split.
  - change (translateCompoundType Samples.key_sku_region)
      with (translateCompoundType
              (mkCompoundType
                 ([mkMember "sku" (NonNullType (NamedType "String"))]
                    ++ [mkMember "region"
                          (NonNullType (NamedType "String"))]))).
    rewrite H12.
    apply (StringFacts.app_cancel_l "{ ") in H1.
    apply (LineFacts.app_cancel_r _ _ "}") in H1.
    apply (StringFacts.app_cancel_l "{ ") in H2.
    apply (LineFacts.app_cancel_r _ _ "}") in H2.
    rewrite <- H1, <- H2. reflexivity.
  - change Samples.no_requires with (mkCompoundType []).
    rewrite He, (Hempty eq_refl). reflexivity.
Defined.

(** X6: a field is always an optional member, whatever its type: under a
    non-null type it renders like the argument of the same name and type
    but with [?:] where the argument has [:], and under any other type both
    are optional and the field keeps the [Nullable<...>] wrapper that the
    argument drops. *)
Theorem field_is_optional_even_when_non_null (f : FieldDefinition) :
  let a := mkArgumentDefinition (field_name f) (field_type f)
             (field_description f) in
  (forall base,
     field_type f = NonNullType base ->
     translateArgumentDefinition a
     = Description_translate (field_description f) ^ field_name f ^ ": "
         ^ Type_translate base false
     /\ translateFieldDefinition f
        = Description_translate (field_description f) ^ field_name f
            ^ "?: " ^ Type_translate base false)
  /\ ((forall base, field_type f <> NonNullType base) ->
      translateArgumentDefinition a
      = Description_translate (field_description f) ^ field_name f ^ "?: "
          ^ Type_translate (field_type f) false
      /\ translateFieldDefinition f
         = Description_translate (field_description f) ^ field_name f
             ^ "?: Nullable<" ^ Type_translate (field_type f) false ^ ">").
Proof.
  intros a.
  rewrite FragmentFacts.field_shape, FragmentFacts.argument_shape.
  cbn [arg_type arg_name arg_description a].
  split.
  - intros base ->. split; reflexivity.
  - intros Hnot. rewrite (FragmentFacts.nullable_wrap _ Hnot). split.
    + destruct (field_type f) as [name | base | base];
        [reflexivity | now destruct (Hnot base) | reflexivity].
    + reflexivity.
Qed.

Lemma field_is_optional_even_when_non_null_witness :
  translateFieldDefinition Samples.id_field = "id?: string"
  /\ translateFieldDefinition Samples.name_field = "name?: Nullable<string>".
Proof.
  destruct (field_is_optional_even_when_non_null Samples.id_field)
    as (Hnonnull & _).
  destruct (field_is_optional_even_when_non_null Samples.name_field)
    as (_ & Hnullable).
  split.
  - destruct (Hnonnull (NamedType "ID") eq_refl) as (_ & ->). reflexivity.
  - destruct Hnullable as (_ & ->); [intros base; discriminate |].
    reflexivity.
Defined.

(** ** The aggregate interface, line by line *)

Module EntryFacts.
Import StringFacts JoinFacts.

Lemma entry_one_line (n : string) : one_line n -> one_line (resolvers_entry n).
Proof.
  intros Hn. unfold resolvers_entry.
  destruct (isRootOperationName n);
    repeat (apply LineFacts.one_line_app; [first [reflexivity | exact Hn] |]);
    reflexivity.
Qed.

(** The entry of an object type refers to the resolver interface of that
    type. *)
Lemma entry_refers_to_resolver (n : string) :
  occurs_in (n ^ "Resolver<TContext, TInternalReps>" ^ nl)
    (nl ^ resolvers_entry n ^ nl).
Proof.
  unfold resolvers_entry.
  destruct (isRootOperationName n); rewrite !app_assoc; find_fragment.
Qed.

End EntryFacts.

(** X7: when no name holds a line feed, the aggregate [Resolvers] interface
    is one line per entry between its opening line and the closing brace:
    first the object types in their order, then the scalars, then, only
    with the internal-enum-value option on, the enums; it ends in a line
    feed. *)
Theorem aggregate_interface_lines
        (options : Options) (types enums scalars : list string) :
  Forall one_line types -> Forall one_line enums -> Forall one_line scalars ->
  split_lines (generateTopLevelResolvers options types enums scalars)
  = ["export interface Resolvers<TContext = {}, TInternalReps = {}> {"]
      ++ map resolvers_entry types
      ++ map (fun scalar => "  " ^ scalar ^ ": any") scalars
      ++ (if __experimentalInternalEnumValueSupport options
          then map (fun enumName =>
                      "  " ^ enumName ^ ": { [external: " ^ enumName
                        ^ "External]: any }") enums
          else [])
      ++ ["}"; EmptyString].
Proof.
  intros Htypes Henums Hscalars. unfold generateTopLevelResolvers.
  rewrite !List.app_assoc.
  rewrite FragmentFacts.join_last_line by (cbn [app]; discriminate).
  apply LineFacts.split_lines_join.
  - cbn [app]. discriminate.
  - repeat (apply Forall_app; split); try (now repeat constructor).
    + apply Forall_map. eapply Forall_impl; [| exact Htypes].
      apply EntryFacts.entry_one_line.
    + apply Forall_map. eapply Forall_impl; [| exact Hscalars].
      intros scalar Hs.
      repeat (apply LineFacts.one_line_app;
              [first [reflexivity | exact Hs] |]); reflexivity.
    + destruct (__experimentalInternalEnumValueSupport options);
        [| constructor].
      apply Forall_map. eapply Forall_impl; [| exact Henums].
      intros enumName He.
      repeat (apply LineFacts.one_line_app;
              [first [reflexivity | exact He] |]); reflexivity.
Qed.

Lemma aggregate_interface_lines_witness :
  split_lines
    (generateTopLevelResolvers Samples.internal_enums ["Query"; "User"]
       ["Color"] ["Date"])
  = [ "export interface Resolvers<TContext = {}, TInternalReps = {}> {";
      "  Query: QueryResolver<TContext, TInternalReps>";
      "  User?: UserResolver<TContext, TInternalReps>";
      "  Date: any";
      "  Color: { [external: ColorExternal]: any }";
      "}";
      EmptyString ].
Proof.
  rewrite (aggregate_interface_lines Samples.internal_enums
             ["Query"; "User"] ["Color"] ["Date"]);
    [reflexivity | | |]; repeat constructor.
Defined.

(** X8: in the aggregate interface every scalar has the entry [  S: any] on
    a line of its own, whatever the option; with the internal-enum-value
    option on every enum has the entry [  E: { [external: EExternal]: any }],
    and with the option off the interface does not depend on the enums at
    all. *)
Theorem aggregate_scalar_and_enum_entries
        (options : Options) (types enums scalars : list string) :
  (forall scalar,
     In scalar scalars ->
     occurs_in (nl ^ "  " ^ scalar ^ ": any" ^ nl)
       (generateTopLevelResolvers options types enums scalars))
  /\ (__experimentalInternalEnumValueSupport options = true ->
      forall enumName,
        In enumName enums ->
        occurs_in (nl ^ "  " ^ enumName ^ ": { [external: " ^ enumName
                     ^ "External]: any }" ^ nl)
          (generateTopLevelResolvers options types enums scalars))
  /\ (__experimentalInternalEnumValueSupport options = false ->
      forall enums',
        generateTopLevelResolvers options types enums' scalars
        = generateTopLevelResolvers options types enums scalars).
Proof.
  unfold generateTopLevelResolvers. cbn [app].
  split; [| split].
  - intros scalar Hin. rewrite !List.app_assoc.
    replace (nl ^ "  " ^ scalar ^ ": any" ^ nl)
      with (nl ^ ("  " ^ scalar ^ ": any") ^ nl)
      by now rewrite !StringFacts.app_assoc.
    apply JoinFacts.join_inner.
    apply in_or_app. left. apply in_or_app. right.
    now apply (in_map (fun scalar => "  " ^ scalar ^ ": any")).
  - intros Hon enumName Hin. rewrite Hon, !List.app_assoc.
    replace (nl ^ "  " ^ enumName ^ ": { [external: " ^ enumName
               ^ "External]: any }" ^ nl)
      with (nl ^ ("  " ^ enumName ^ ": { [external: " ^ enumName
                    ^ "External]: any }") ^ nl)
      by now rewrite !StringFacts.app_assoc.
    apply JoinFacts.join_inner.
    apply in_or_app. right.
    now apply (in_map (fun enumName =>
                         "  " ^ enumName ^ ": { [external: " ^ enumName
                           ^ "External]: any }")).
  - intros Hoff enums'. now rewrite Hoff.
Qed.

Lemma aggregate_scalar_and_enum_entries_witness :
  occurs_in (nl ^ "  Color: { [external: ColorExternal]: any }" ^ nl)
    (generateTopLevelResolvers Samples.internal_enums ["User"] ["Color"]
       ["Date"])
  /\ generateTopLevelResolvers Samples.defaults ["User"] [] ["Date"]
     = generateTopLevelResolvers Samples.defaults ["User"] ["Color"]
         ["Date"].
Proof.
  destruct (aggregate_scalar_and_enum_entries Samples.internal_enums
              ["User"] ["Color"] ["Date"]) as (_ & Hon & _).
  destruct (aggregate_scalar_and_enum_entries Samples.defaults
              ["User"] ["Color"] ["Date"]) as (_ & _ & Hoff).
  split.
  - apply (Hon eq_refl "Color"). now left.
  - apply (Hoff eq_refl []).
Defined.

(** ** What the output declares *)

Module DeclarationFacts.
Import StringFacts JoinFacts.

(** Both kinds of declaration open with the representation alias of the
    type and hold its resolver interface. *)
Lemma declaration_parts (o : ObjectDefinition) (declaration : string) :
  ObjectDefinition_translate o = Ok declaration ->
  occurs_in ("type " ^ name o
               ^ "Representation<TInternalReps extends Record<string, any>> = Index<TInternalReps, "
               ^ dq ^ name o ^ dq) declaration
  /\ occurs_in ("export interface " ^ name o
                  ^ "Resolver<TContext = {}, TInternalReps = {}> {" ^ nl)
       declaration.
Proof.
  unfold ObjectDefinition_translate.
  destruct (variant o);
    [rewrite Shape.object_shape | rewrite Shape.entity_shape];
    (destruct (resolver_lines (resolvers o)) as [members |];
     [| discriminate]);
    cbn [bind]; intros H; apply Ok_inj in H; subst declaration.
  - unfold plain_representation_alias, resolver_interface.
    split; [find_fragment |].
    destruct (isRootType o); [| unfold field_interface];
      rewrite ?app_assoc; find_fragment.
  - unfold entity_representation_alias, entity_root_alias,
      entity_resolver_interface.
    split; rewrite ?app_assoc; find_fragment.
Qed.

Lemma enum_declaration_in_output (options : Options)
      (objects : list ObjectDefinition) (enums : list EnumDefinition)
      (scalars : list ScalarDefinition) (out : string) (e : EnumDefinition) :
  generate options objects enums scalars = Ok out ->
  In e enums ->
  occurs_in (translateEnumDefinition options e) out.
Proof.
  rewrite Shape.generate_shape.
  destruct (mapM ObjectDefinition_translate objects) as [ds |];
    [| discriminate].
  cbn [bind]. intros H Hin. apply Ok_inj in H. subst out.
  do 6 apply occurs_in_app_r. apply occurs_in_app_l.
  apply join_In. now apply in_map.
Qed.

Lemma scalar_declaration_in_output (options : Options)
      (objects : list ObjectDefinition) (enums : list EnumDefinition)
      (scalars : list ScalarDefinition) (out : string)
      (s : ScalarDefinition) :
  generate options objects enums scalars = Ok out ->
  In s scalars ->
  occurs_in (translateScalarDefinition s) out.
Proof.
  rewrite Shape.generate_shape.
  destruct (mapM ObjectDefinition_translate objects) as [ds |];
    [| discriminate].
  cbn [bind]. intros H Hin. apply Ok_inj in H. subst out.
  do 8 apply occurs_in_app_r.
  apply join_In. now apply in_map.
Qed.

End DeclarationFacts.

(** X9: the output declares what its aggregate interface refers to: for
    every object of an input whose parent references are present,
    [generate] returns an output that holds the entry of the object,
    referring to [<Name>Resolver], the declaration of the interface
    [<Name>Resolver], and the alias [<Name>Representation] that resolver
    signatures use as their parent type. *)
Theorem every_object_is_declared
        (options : Options) (objects : list ObjectDefinition)
        (enums : list EnumDefinition) (scalars : list ScalarDefinition)
        (o : ObjectDefinition) :
  parents_present objects ->
  In o objects ->
  exists out,
    generate options objects enums scalars = Ok out
    /\ occurs_in (name o ^ "Resolver<TContext, TInternalReps>" ^ nl) out
    /\ occurs_in ("export interface " ^ name o
                    ^ "Resolver<TContext = {}, TInternalReps = {}> {" ^ nl)
         out
    /\ occurs_in ("type " ^ name o
                    ^ "Representation<TInternalReps extends Record<string, any>> = Index<TInternalReps, "
                    ^ dq ^ name o ^ dq) out.
Proof.
  intros Hp Hin.
  destruct (proj1 (Shape.generate_returns options objects enums scalars) Hp)
    as (out & Hout).
  exists out. split; [exact Hout |].
  destruct (AggregateFacts.declaration_in_output _ _ _ _ _ _ Hout Hin)
    as (declaration & Hdecl & Hocc).
  destruct (DeclarationFacts.declaration_parts _ _ Hdecl) as (Halias & Hint).
  split; [| split].
  - eapply FragmentFacts.occurs_in_trans;
      [apply EntryFacts.entry_refers_to_resolver |].
    eapply FragmentFacts.occurs_in_trans;
      [| apply (AggregateFacts.section_in_output _ _ _ _ _ Hout)].
    apply AggregateFacts.entry_in_section. now apply in_map.
  - eapply FragmentFacts.occurs_in_trans; eassumption.
  - eapply FragmentFacts.occurs_in_trans; eassumption.
Qed.

Lemma every_object_is_declared_witness :
  exists out,
    generate Samples.defaults [Samples.Query; Samples.Product] [] [] = Ok out
    /\ occurs_in ("ProductResolver<TContext, TInternalReps>" ^ nl) out
    /\ occurs_in
         ("export interface ProductResolver<TContext = {}, TInternalReps = {}> {"
            ^ nl) out.
Proof.
  destruct (every_object_is_declared Samples.defaults
              [Samples.Query; Samples.Product] [] [] Samples.Product)
    as (out & Hout & Hentry & Hinterface & _);
    [solve_present | right; now left |].
  exists out. split; [exact Hout |]. split; [exact Hentry | exact Hinterface].
Defined.

(** X10: for an input whose parent references are present, the output of
    [generate] holds the declaration of every enum and of every scalar, and
    the required entry [  S: any] of every scalar; with the
    internal-enum-value option on it holds, for every enum, both the entry
    that refers to [<Name>External] and the alias that declares it. *)
Theorem enums_and_scalars_are_declared
        (options : Options) (objects : list ObjectDefinition)
        (enums : list EnumDefinition) (scalars : list ScalarDefinition) :
  parents_present objects ->
  exists out,
    generate options objects enums scalars = Ok out
    /\ (forall e, In e enums ->
          occurs_in (translateEnumDefinition options e) out)
    /\ (forall s, In s scalars ->
          occurs_in ("export type " ^ scalar_name s ^ " = any") out
          /\ occurs_in (nl ^ "  " ^ scalar_name s ^ ": any" ^ nl) out)
    /\ (__experimentalInternalEnumValueSupport options = true ->
        forall e, In e enums ->
          occurs_in ("[external: " ^ enum_name e ^ "External]") out
          /\ occurs_in ("export type " ^ enum_name e ^ "External = ") out).
Proof.
  intros Hp.
  destruct (proj1 (Shape.generate_returns options objects enums scalars) Hp)
    as (out & Hout).
  pose proof (AggregateFacts.section_in_output _ _ _ _ _ Hout) as Hsection.
  exists out. split; [exact Hout |]. split; [| split].
  - intros e Hin.
    now apply (DeclarationFacts.enum_declaration_in_output _ _ _ _ _ _ Hout).
  - intros s Hin. split.
    + now apply (DeclarationFacts.scalar_declaration_in_output
                   _ _ _ _ _ _ Hout).
    + eapply FragmentFacts.occurs_in_trans; [| exact Hsection].
      unfold generateTopLevelResolvers. cbn [app].
      rewrite !List.app_assoc.
      replace (nl ^ "  " ^ scalar_name s ^ ": any" ^ nl)
        with (nl ^ ("  " ^ scalar_name s ^ ": any") ^ nl)
        by now rewrite !StringFacts.app_assoc.
      apply JoinFacts.join_inner.
      apply in_or_app. left. apply in_or_app. right.
      apply (in_map (fun scalar => "  " ^ scalar ^ ": any")).
      now apply in_map.
  - intros Hon e Hin. split.
    + eapply FragmentFacts.occurs_in_trans; [| exact Hsection].
      unfold generateTopLevelResolvers. rewrite Hon.
      eapply FragmentFacts.occurs_in_trans; [| apply JoinFacts.join_In].
      2:{ apply in_or_app. right. apply in_or_app. right.
          apply in_or_app. right. apply in_or_app. left.
          apply (in_map (fun enumName =>
                           "  " ^ enumName ^ ": { [external: " ^ enumName
                             ^ "External]: any }")).
          apply in_map. exact Hin. }
      exists ("  " ^ enum_name e ^ ": { "), ": any }".
      rewrite !StringFacts.app_assoc. reflexivity.
    + eapply FragmentFacts.occurs_in_trans;
        [| apply (DeclarationFacts.enum_declaration_in_output
                    _ _ _ _ _ _ Hout Hin)].
      unfold translateEnumDefinition. rewrite Hon.
      cbn [join String.concat]. rewrite ?StringFacts.app_assoc.
      find_fragment.
Qed.

Lemma enums_and_scalars_are_declared_witness :
  exists out,
    generate Samples.internal_enums [Samples.User] [Samples.Color]
      [Samples.Date] = Ok out
    /\ occurs_in "export type Date = any" out
    /\ occurs_in "[external: ColorExternal]" out
    /\ occurs_in "export type ColorExternal = " out.
Proof.
  destruct (enums_and_scalars_are_declared Samples.internal_enums
              [Samples.User] [Samples.Color] [Samples.Date])
    as (out & Hout & _ & Hscalars & Henums); [solve_present |].
  exists out. split; [exact Hout |].
  destruct (Hscalars Samples.Date) as (Hdate & _); [now left |].
  destruct (Henums eq_refl Samples.Color) as (Href & Hdecl); [now left |].
  split; [exact Hdate |]. split; [exact Href | exact Hdecl].
Defined.

(** X11: the declaration of an object whose resolvers render holds every
    resolver of the object on a line of its own; it holds every field as
    well, unless the object is a plain root type; the declaration of an
    entity holds in addition each of its key sets and the optional
    [__resolveReference] member, whatever its root flag is. *)
Theorem declaration_lists_its_members (t : ObjectDefinition) :
  Forall renderable (resolvers t) ->
  exists declaration,
    ObjectDefinition_translate t = Ok declaration
    /\ (forall r,
          In r (resolvers t) ->
          exists member,
            translateResolverDefinition r = Ok member
            /\ occurs_in (member ^ nl) declaration)
    /\ (variant t = Entity \/ isRootType t = false ->
        forall f,
          In f (fields t) ->
          occurs_in (translateFieldDefinition f ^ nl) declaration)
    /\ (variant t = Entity ->
        occurs_in ("  __resolveReference?: (parent: " ^ name t
                     ^ "Representation<") declaration
        /\ forall k,
             In k (keys t) ->
             occurs_in (translateCompoundType k) declaration).
Proof.
  intros Hr. apply Shape.resolver_lines_render in Hr as (members & Hm).
  assert (Hfields : forall f,
             In f (fields t) ->
             occurs_in (translateFieldDefinition f ^ nl)
               (join EmptyString (field_lines (fields t)))).
  { intros f Hin. apply JoinFacts.join_In. unfold field_lines.
    now apply (in_map (fun field => translateFieldDefinition field ^ nl)). }
  assert (Hresolvers : forall r,
             In r (resolvers t) ->
             exists member,
               translateResolverDefinition r = Ok member
               /\ occurs_in (member ^ nl) (join EmptyString members)).
  { intros r Hin.
    destruct (FragmentFacts.resolver_line _ _ _ Hm Hin)
      as (member & Hmember & Hin').
    exists member. split; [exact Hmember | now apply JoinFacts.join_In]. }
  unfold ObjectDefinition_translate.
  destruct (variant t) eqn:Hv.
  - rewrite Shape.object_shape, Hm. cbn [bind]. eexists.
    split; [reflexivity |]. split; [| split].
    + intros r Hin. destruct (Hresolvers r Hin) as (member & Hmember & Hocc).
      exists member. split; [exact Hmember |].
      do 2 apply StringFacts.occurs_in_app_r.
      eapply FragmentFacts.occurs_in_trans; [exact Hocc |].
      unfold resolver_interface. find_fragment.
    + intros [Hentity | Hroot] f Hin; [discriminate |]. rewrite Hroot.
      apply StringFacts.occurs_in_app_r, StringFacts.occurs_in_app_l.
      eapply FragmentFacts.occurs_in_trans; [exact (Hfields f Hin) |].
      unfold field_interface. find_fragment.
    + discriminate.
  - rewrite Shape.entity_shape, Hm. cbn [bind]. eexists.
    split; [reflexivity |]. split; [| split].
    + intros r Hin. destruct (Hresolvers r Hin) as (member & Hmember & Hocc).
      exists member. split; [exact Hmember |].
      do 2 apply StringFacts.occurs_in_app_r.
      eapply FragmentFacts.occurs_in_trans; [exact Hocc |].
      unfold entity_resolver_interface. find_fragment.
    + intros _ f Hin.
      apply StringFacts.occurs_in_app_r, StringFacts.occurs_in_app_l.
      eapply FragmentFacts.occurs_in_trans; [exact (Hfields f Hin) |].
      unfold entity_root_alias. find_fragment.
    + intros _. split.
      * do 2 apply StringFacts.occurs_in_app_r.
        unfold entity_resolver_interface.
        exists (Description_translate (object_description t)
                  ^ "export interface " ^ name t
                  ^ "Resolver<TContext = {}, TInternalReps = {}> {" ^ nl).
        eexists. rewrite !StringFacts.app_assoc. reflexivity.
      * intros k Hin. apply StringFacts.occurs_in_app_l.
        eapply FragmentFacts.occurs_in_trans.
        -- apply (JoinFacts.join_In " | "). apply in_map. exact Hin.
        -- unfold entity_representation_alias. find_fragment.
Qed.

Lemma declaration_lists_its_members_witness :
  exists declaration,
    ObjectDefinition_translate Samples.Product = Ok declaration
    /\ occurs_in ("id?: string" ^ nl) declaration
    /\ occurs_in "{ sku: string, region: string, }" declaration.
Proof.
  destruct (declaration_lists_its_members Samples.Product)
    as (declaration & Hdecl & _ & Hfields & Hentity); [solve_present |].
  exists declaration. split; [exact Hdecl |]. split.
  - apply (Hfields (or_introl eq_refl) Samples.id_field). now left.
  - destruct (Hentity eq_refl) as (_ & Hkeys).
    apply (Hkeys Samples.key_sku_region). right. now left.
Defined.

(** X12: the signature of a resolver that is rendered as a callable takes
    its arguments as a record: the empty record [{}] when the resolver has
    no argument, and otherwise a record that holds the rendering of every
    argument on a line of its own; the signature ends with the return type,
    rendered as nullable by default, inside [PromiseOrValue<...>]. *)
Theorem signature_lists_every_argument
        (r : ResolverDefinition) (p : Parent) :
  isNotProvidedAndExternal r = false ->
  parent r = Some p ->
  exists out,
    translateResolverDefinition r = Ok out
    /\ (arguments r = [] ->
        occurs_in ", args: {}, context: TContext, info: any) => " out)
    /\ (forall a,
          In a (arguments r) ->
          occurs_in ("args: {" ^ nl) out
          /\ occurs_in (nl ^ translateArgumentDefinition a ^ nl) out)
    /\ ends_with (") => PromiseOrValue<"
                    ^ Type_translate (resolver_type r) true ^ ">") out.
Proof.
  intros He Hp. eexists.
  split; [exact (Shape.resolver_callable r p He Hp) |].
  unfold callable_signature. split; [| split].
  - intros ->. cbn [argsType].
    exists (Description_translate (resolver_description r)
              ^ resolver_name r
              ^ (if resolver_isRootType r then ": " else "?: ")
              ^ "(parent: " ^ parentType p (requires r)).
    eexists. rewrite !StringFacts.app_assoc. reflexivity.
  - intros a Hin.
    assert (Hargs : argsType (arguments r)
                    = "{" ^ nl
                      ^ join nl (map translateArgumentDefinition
                                   (arguments r))
                      ^ nl ^ "}").
    { destruct (arguments r); [contradiction | reflexivity]. }
    rewrite Hargs. split.
    + exists (Description_translate (resolver_description r)
                ^ resolver_name r
                ^ (if resolver_isRootType r then ": " else "?: ")
                ^ "(parent: " ^ parentType p (requires r) ^ ", ").
      eexists. rewrite !StringFacts.app_assoc. reflexivity.
    + eapply FragmentFacts.occurs_in_trans.
      * apply (FragmentFacts.join_enclosed nl).
        apply in_map. exact Hin.
      * exists (Description_translate (resolver_description r)
                  ^ resolver_name r
                  ^ (if resolver_isRootType r then ": " else "?: ")
                  ^ "(parent: " ^ parentType p (requires r) ^ ", args: {").
        eexists. rewrite !StringFacts.app_assoc. reflexivity.
  - exists (Description_translate (resolver_description r)
              ^ resolver_name r
              ^ (if resolver_isRootType r then ": " else "?: ")
              ^ "(parent: " ^ parentType p (requires r) ^ ", args: "
              ^ argsType (arguments r) ^ ", context: TContext, info: any").
    rewrite !StringFacts.app_assoc. reflexivity.
Qed.

Lemma signature_lists_every_argument_witness :
  exists out,
    translateResolverDefinition Samples.shipping_resolver = Ok out
    /\ occurs_in (nl ^ "first?: number" ^ nl) out
    /\ ends_with ") => PromiseOrValue<Nullable<number>>" out.
Proof.
  destruct (signature_lists_every_argument Samples.shipping_resolver
              (mkParent "Product") eq_refl eq_refl)
    as (out & Hout & _ & Hargs & Hend).
  exists out. split; [exact Hout |]. split; [| exact Hend].
  apply (Hargs Samples.first_argument). now left.
Defined.
